(** * rapidtide: delay refinement and the orchestrating pass loop

    A shallow embedding of the parts of [rapidtide/refinedelay.py] and
    [rapidtide/workflows/rapidtide.py] that decide how the lag search
    window is fixed, how despeckling and regressor refinement terminate,
    how empty masks are handled, and how derivative ratios are turned
    into delay corrections.

    Python floats and numpy [float64] values are IEEE 754 binary64
    numbers; they are modelled by [spec_float] with [prec = 53] and
    [emax = 1024], so that NaN, the infinities and signed zeros behave
    as they do in the program.  The GLM coefficients of the delay
    refinement have the output precision of the run, [float32] or
    [float64]; their quotient is taken with the precision and the
    exponent range of that dtype. *)

From Stdlib Require Import String ZArith List Bool Lia Sorted.
From Stdlib Require Import Floats.SpecFloat.
Import ListNotations.

Local Open Scope Z_scope.

(* ================================================================== *)
(** ** Binary64 arithmetic *)
(* ================================================================== *)

Module F64.

Definition prec : Z := 53.
Definition emax : Z := 1024.

Definition float : Type := spec_float.

Definition add : float -> float -> float := SFadd prec emax.
Definition sub : float -> float -> float := SFsub prec emax.
Definition mul : float -> float -> float := SFmul prec emax.
Definition div : float -> float -> float := SFdiv prec emax.
Definition opp : float -> float := SFopp.
Definition abs : float -> float := SFabs.

(** Python's [a < b], [a <= b], [a > b], [a == b] and [a != b] on floats:
    every ordered comparison with a NaN is [False], [!=] is [True]. *)
Definition ltb (a b : float) : bool := SFltb a b.
Definition leb (a b : float) : bool := SFleb a b.
Definition gtb (a b : float) : bool := SFltb b a.
Definition eqb (a b : float) : bool := SFeqb a b.
Definition neqb (a b : float) : bool := negb (SFeqb a b).

(** Conversion of a Python [int] to a float (round to nearest even). *)
Definition of_Z (z : Z) : float := binary_normalize prec emax z 0 false.

Definition zero : float := S754_zero false.
Definition one : float := Eval vm_compute in of_Z 1.
Definition two : float := Eval vm_compute in of_Z 2.
Definition half : float := Eval vm_compute in div one two.

Definition is_nan (x : float) : bool :=
  match x with S754_nan => true | _ => false end.

Definition is_zero (x : float) : bool :=
  match x with S754_zero _ => true | _ => false end.

(** Neither NaN nor an infinity ([numpy.isfinite]). *)
Definition is_finite (x : float) : bool :=
  match x with
  | S754_zero _ | S754_finite _ _ _ => true
  | S754_infinity _ | S754_nan => false
  end.

(** Python's [int(x)]: truncation towards zero; [ValueError] on NaN and
    [OverflowError] on an infinity, both rendered as [None]. *)
Definition to_int (x : float) : option Z :=
  match x with
  | S754_nan | S754_infinity _ => None
  | S754_zero _ => Some 0
  | S754_finite s m e =>
      let v := match e with
               | Z0 => Zpos m
               | Zpos p => Z.shiftl (Zpos m) e
               | Zneg p => Z.shiftr (Zpos m) (Zpos p)
               end in
      Some (cond_Zopp s v)
  end.

End F64.

(* ================================================================== *)
(** ** Exceptions and fallible computations *)
(* ================================================================== *)

(** The ways in which the modelled code leaves its normal control flow.
    A [ValueError] carries its message, and the number formatted into
    it when there is one. *)
Inductive exn : Type :=
| ValueError (msg : string) (arg : option F64.float)
| OverflowError
| IndexError
| FileNotFoundError
| SystemExit.

Inductive result (A : Type) : Type :=
| Ok (a : A)
| Raise (e : exn).

Arguments Ok {A} a.
Arguments Raise {A} e.

Definition bind {A B : Type} (r : result A) (k : A -> result B) : result B :=
  match r with
  | Ok a => k a
  | Raise e => Raise e
  end.

Notation "x <- c ;; k" := (bind c (fun x => k))
  (at level 61, c at next level, right associativity).

(* ================================================================== *)
(** ** numpy array helpers on flat arrays *)
(* ================================================================== *)

Module Np.

(** Elementwise binary operation on two one-dimensional arrays of the
    same shape; a shape mismatch is a [ValueError]. *)
Fixpoint map2 {A B C : Type} (f : A -> B -> C) (xs : list A) (ys : list B)
  : result (list C) :=
  match xs, ys with
  | [], [] => Ok []
  | x :: xs', y :: ys' =>
      rest <- map2 f xs' ys' ;; Ok (f x y :: rest)
  | _, _ => Raise (ValueError "operands could not be broadcast together"%string None)
  end.

(** Integer-array indexing [a[idx]]; an index out of bounds is an
    [IndexError]. *)
Fixpoint take {A : Type} (a : list A) (idx : list nat) : result (list A) :=
  match idx with
  | [] => Ok []
  | i :: idx' =>
      match nth_error a i with
      | None => Raise IndexError
      | Some v => rest <- take a idx' ;; Ok (v :: rest)
      end
  end.

(** Number of entries satisfying a predicate: [len(np.where(p(a))[0])]. *)
Definition count_where {A : Type} (p : A -> bool) (a : list A) : nat :=
  length (filter p a).

End Np.

(* ================================================================== *)
(** ** rapidtide/refinedelay.py *)
(* ================================================================== *)

Module RefineDelay.
Import F64.

(** The module-level globals [ratiotooffsetfunc] and [maplimits] that
    [trainratiotooffset] sets and [ratiotodelay] reads. *)
Record globals : Type := {
  ratiotooffsetfunc : float -> float;
  maplimits : float * float
}.

(** The last two statements of [trainratiotooffset]: the spline is built
    on the reversed ratio grid and [maplimits] holds the first and the
    last entry of that reversed grid.  [CubicSpline] is scipy's. *)
Definition trainratiotooffset_globals
    (CubicSpline : list float -> list float -> result (float -> float))
    (smoothglmderivratios lagtimes : list float) : result globals :=
  let xs := rev smoothglmderivratios in
  f <- CubicSpline xs (rev lagtimes) ;;
  match xs with
  | [] => Raise IndexError
  | x0 :: _ =>
      Ok {| ratiotooffsetfunc := f; maplimits := (x0, last xs x0) |}
  end.

Definition ratiotodelay (g : globals) (theratio : float) : float :=
  if ltb theratio (fst (maplimits g)) then
    ratiotooffsetfunc g (fst (maplimits g))
  else if gtb theratio (snd (maplimits g)) then
    ratiotooffsetfunc g (snd (maplimits g))
  else
    ratiotooffsetfunc g theratio.

(** The ratio the spline is evaluated at. *)
Definition clampedratio (g : globals) (theratio : float) : float :=
  if ltb theratio (fst (maplimits g)) then fst (maplimits g)
  else if gtb theratio (snd (maplimits g)) then snd (maplimits g)
  else theratio.

(** The dtype of the [fitcoeff] array that the caller of
    [getderivratios] allocates: [rapidtide_main] uses [rt_outfloattype],
    which is ["float32"] unless [outputprecision] is ["double"];
    [trainratiotooffset] and [retroglm] use ["float64"].  A number of
    either dtype is a [float]; the dtype fixes how the quotient is
    rounded and which number stands in for an infinity. *)
Inductive floattype : Type := float32 | float64.

Definition fprec (dtype : floattype) : Z :=
  match dtype with float32 => 24 | float64 => 53 end.

Definition femax (dtype : floattype) : Z :=
  match dtype with float32 => 128 | float64 => 1024 end.

(** [np.finfo(dtype).max]. *)
Definition finfo_max (dtype : floattype) : float :=
  SFmax_float (fprec dtype) (femax dtype).

(** The quotient of two numbers of one dtype, in that dtype. *)
Definition divide (dtype : floattype) (a b : float) : float :=
  SFdiv (fprec dtype) (femax dtype) a b.

(** [numpy.nan_to_num] with its default arguments on an array of the
    given dtype: NaN becomes [0.0], [+inf] the largest finite number of
    the dtype and [-inf] the most negative one. *)
Definition nan_to_num_as (dtype : floattype) (x : float) : float :=
  match x with
  | S754_nan => zero
  | S754_infinity false => finfo_max dtype
  | S754_infinity true => opp (finfo_max dtype)
  | _ => x
  end.

(** [getderivratios]: after the one-derivative GLM has filled [fitcoeff]
    (one row per voxel: base coefficient, derivative coefficient), the
    ratio of column 1 to column 0 goes through [nan_to_num]. *)
Definition derivratio (dtype : floattype) (row : float * float) : float :=
  nan_to_num_as dtype (divide dtype (snd row) (fst row)).

Section GetDerivRatios.
Variable glminputs : Type.
(** [tide_glmfrommaps.glmfrommaps] with [glmderivs=1], as far as it
    fills [fitcoeff]. *)
Variable glmfrommaps : glminputs -> list (float * float).

End GetDerivRatios.

Section FilterDerivRatios.
(** [statsmodels.robust.mad]. *)
Variable mad : list float -> float.
(** [tide_io.makedestarray] and [tide_io.populatemap]: the ratios of the
    valid voxels placed into a flat map of the whole space. *)
Variable populatemap : list float -> list nat -> result (list float).
(** [scipy.ndimage.median_filter] with [size=(3, 3, 3)] on the map
    reshaped to [nativespaceshape], the result flattened again. *)
Variable median_filter : list float -> list float.

Definition patch (thresh : float) (ratio medfilt : float) : float :=
  if gtb (abs (sub ratio medfilt)) thresh then medfilt else ratio.

Definition filterderivratios (glmderivratio : list float)
    (validvoxels : list nat) (patchthresh : float)
    (fileiscifti textio : bool) : result (list float * list float) :=
  let themad := mad glmderivratio in
  mappedglmderivratio <- populatemap glmderivratio validvoxels ;;
  if textio || fileiscifti then
    Ok (glmderivratio, glmderivratio)
  else
    medfilt <- Np.take (median_filter mappedglmderivratio) validvoxels ;;
    filteredarray <-
      Np.map2 (patch (mul patchthresh themad)) glmderivratio medfilt ;;
    Ok (medfilt, filteredarray).

(** [rapidtide_main], delay refinement: every patched ratio goes
    through [ratiotodelay] and the offsets are added to the lags. *)
Definition delayoffsets (g : globals) (filteredglmderivratios : list float)
  : list float :=
  map (ratiotodelay g) filteredglmderivratios.

Definition lagtimescorrected (g : globals) (lagtimes : list float)
    (filteredglmderivratios : list float) : result (list float) :=
  Np.map2 add lagtimes (delayoffsets g filteredglmderivratios).

End FilterDerivRatios.

(** [a[edgepad:-edgepad]], the trimming at the end of
    [trainratiotooffset]; with [edgepad = 0] the slice is [a[0:0]]. *)
Definition trimedges {A : Type} (edgepad : nat) (a : list A) : list A :=
  match edgepad with
  | O => []
  | S _ => firstn (length a - edgepad - edgepad) (skipn edgepad a)
  end.

(** [trainratiotooffset] from the trimming on: the smoothed ratios and
    the lag grid lose [edgepad] points at each end, then the spline and
    [maplimits] are set from what is left. *)
Definition trainratiotooffset_tail
    (CubicSpline : list float -> list float -> result (float -> float))
    (edgepad : nat) (smoothglmderivratios lagtimes : list float)
  : result globals :=
  trainratiotooffset_globals CubicSpline
    (trimedges edgepad smoothglmderivratios) (trimedges edgepad lagtimes).

End RefineDelay.

(* ================================================================== *)
(** ** rapidtide/workflows/rapidtide.py: the run and its pass loop *)
(* ================================================================== *)

Module Workflow.
Import F64.

(** *** The convergence metric *)

Definition np_sum (a : list float) : float := fold_left add a zero.

Definition np_mean (a : list float) : float :=
  div (np_sum a) (of_Z (Z.of_nat (length a))).

(** Modelled from the spec: [mse] is imported from [rapidtide.tests.utils],
    which is not among the sources.  The spec calls the convergence
    metric the mean squared error between the new candidate regressor
    and the previous pass's: the mean of the squared elementwise
    differences of the two vectors. *)
Definition mse (vec1 vec2 : list float) : result float :=
  d <- Np.map2 sub vec2 vec1 ;;
  Ok (np_mean (map (fun x => mul x x) d)).

(** *** Options, events and the event log *)

Record options : Type := {
  lagmin : float;
  lagmax : float;
  oversampfactor : Z;
  passes : Z;
  maxpasses : Z;
  convergencethresh : option float;
  globalpreselect : bool;
  echocancel : bool;
  numestreps : Z;
  fakerun : bool;
  check_autocorrelation : bool;
  similaritymetric : string;
  despeckle_passes : Z
}.

Inductive marker : Type := ISRUNNING | DONE.

(** Values of [optiondict["currentstage"]] written to the run options. *)
Inductive stage : Type :=
| stage_init
| stage_preprocessingdone
| stage_precorrelation (thepass : Z)
| stage_presimfuncfit (thepass : Z)
| stage_prerefine (thepass : Z)
| stage_preglm
| stage_done.

Inductive stopreason : Type :=
| passesreached
| maxpassesreached
| convergence
| emptymask.

(** The two similarity function objects of a run; both are created
    before the pass loop and shared by all passes. *)
Inductive simfunc : Type := theCorrelator | theMutualInformationator.

(** The actions of a run that the log records, in program order: the
    two marker files, the saves of the run options to
    [<outputname>_desc-runoptions_info.json], the calls of [setlimits],
    the null distribution, the similarity passes and the peak fits, the
    convergence metric, and the warning and the critical message of the
    refinement step.  Other output (informational messages, other
    warnings, the data files) is not recorded.
    [SetLimits f a b] is [f.setlimits(a, b)].
    [CalcSimilarityPass 0 _ _] is the similarity pass of the echo
    cancellation, which precedes pass 1.  [FitCorr] is the peak fit of
    step 2, [FitCorrDespeckling p d] the call of the same routine with
    [despeckling=True] in sub-pass [d] of the despeckling of pass [p]. *)
Inductive event : Type :=
| Unlink (m : marker)
| Touch (m : marker)
| WriteOptions (currentstage : stage)
| SetLimits (f : simfunc) (lagmininpts lagmaxinpts : Z)
| NullDistribution (thepass : Z)
| CalcSimilarityPass (thepass : Z) (lagmininpts lagmaxinpts : Z)
| FitCorr (thepass : Z)
| FitCorrDespeckling (thepass despecklepass : Z)
| RegressorMSE (thepass : Z) (regressormse : float)
| Warning (msg : string)
| Critical (msg : string).

(** A computation that logs events and then returns or raises. *)
Definition W (A : Type) : Type := (list event * result A)%type.

Definition wret {A : Type} (a : A) : W A := ([], Ok a).
Definition emit (e : event) : W unit := ([e], Ok tt).
Definition emitall (l : list event) : W unit := (l, Ok tt).
Definition wraise {A : Type} (e : exn) : W A := ([], Raise e).
Definition lift {A : Type} (r : result A) : W A := ([], r).

Definition wbind {A B : Type} (c : W A) (k : A -> W B) : W B :=
  match c with
  | (log, Ok a) => let '(log', r) := k a in (log ++ log', r)
  | (log, Raise e) => (log, Raise e)
  end.

Notation "x <~ c ;; k" := (wbind c (fun x => k))
  (at level 61, c at next level, right associativity).
Notation "c ;;; k" := (wbind c (fun _ => k))
  (at level 61, right associativity).

(** The two marker files of a run, [<outputname>_ISRUNNING.txt] and
    [<outputname>_DONE.txt]: which of them exist. *)
Record files : Type := { isrunning_exists : bool; done_exists : bool }.

Definition apply_event (fs : files) (e : event) : files :=
  match e with
  | Unlink ISRUNNING => {| isrunning_exists := false;
                           done_exists := done_exists fs |}
  | Unlink DONE => {| isrunning_exists := isrunning_exists fs;
                      done_exists := false |}
  | Touch ISRUNNING => {| isrunning_exists := true;
                          done_exists := done_exists fs |}
  | Touch DONE => {| isrunning_exists := isrunning_exists fs;
                     done_exists := true |}
  | _ => fs
  end.

Definition replay (fs : files) (log : list event) : files :=
  fold_left apply_event log fs.

(** *** Configuration checks *)

(** [abs(lagmin)] and [abs(lagmax)] against half the valid duration. *)
Definition halfduration (validstart validend : Z) (fmritr : float) : float :=
  div (mul (of_Z (validend - validstart + 1)) fmritr) two.

Definition check_lag_bounds (o : options) (validstart validend : Z)
    (fmritr : float) : result unit :=
  if gtb (abs (lagmin o)) (halfduration validstart validend fmritr) then
    Raise (ValueError "magnitude of lagmin exceeds {} - invalid"%string
             (Some (halfduration validstart validend fmritr)))
  else if gtb (abs (lagmax o)) (halfduration validstart validend fmritr) then
    Raise (ValueError "magnitude of lagmax exceeds {} - invalid"%string
             (Some (halfduration validstart validend fmritr)))
  else Ok tt.

Definition int (x : float) : result Z :=
  match to_int x with
  | Some z => Ok z
  | None =>
      if is_nan x
      then Raise (ValueError "cannot convert float NaN to integer"%string None)
      else Raise OverflowError
  end.

Definition narrow_msg : string :=
  "correlation search range is too narrow - decrease lagmin, increase lagmax, or increase oversample factor"%string.

(** [lagmininpts] and [lagmaxinpts], with the check that follows them. *)
Definition lag_window (o : options) (corrtr : float) : result (Z * Z) :=
  lagmininpts <- int (sub (div (opp (lagmin o)) corrtr) half) ;;
  lagmaxinpts <- int (add (div (lagmax o) corrtr) half) ;;
  if lagmaxinpts + lagmininpts <? 3 then
    Raise (ValueError narrow_msg None)
  else Ok (lagmininpts, lagmaxinpts).

(** The index range of the similarity function that is kept. *)
Definition retained_window (corrorigin : Z) (win : Z * Z) : Z * Z :=
  (corrorigin - fst win, corrorigin + snd win).

(** [acmininpts] and [acmaxinpts], the limits the Correlator is given
    for the check of the regressor's autocorrelation. *)
Definition acwindow (corrorigin : Z) (win : Z * Z) : Z * Z :=
  let lagindpad := corrorigin - 2 * Z.max (fst win) (snd win) in
  (fst win + lagindpad, snd win + lagindpad).

(** *** The collaborators of the pass loop *)

(** Everything [rapidtide_main] calls that is not in this file, reduced
    to what the control flow consumes.  [regressor] is the probe
    ([resampref_y], [resampnonosref_y], [genlagtc]); [fitresult] holds
    the maps of a pass after fitting and despeckling.  [fmritr],
    [validstart] and [validend] are what reading the data file gave: a
    world describes a run that got as far as the checks of the lag
    bounds. *)
Record world : Type := {
  regressor : Type;
  fitresult : Type;
  fmritr : float;
  validstart : Z;
  validend : Z;
  (** [theCorrelator.similarityfuncorigin] *)
  corrorigin : Z;
  (** what a fake run does between the checks of the lag bounds and its
      return: reading masks, confound regression, the reference *)
  readinputs : result unit;
  (** the same and the preparation of the resampled regressors, in a
      run that is not fake *)
  preprocess : result regressor;
  resampnonosref_y : regressor -> list float;
  (** step 2b of a pass: the number of despeckling sub-passes that
      would refit before one finds nothing to do, from the lag map of
      the pass (see [Despeckle]) *)
  despecklerefits : Z -> regressor -> nat;
  (** steps 0 to 2c of a pass: similarity, peak fit, despeckling *)
  fitpass : Z -> regressor -> fitresult;
  (** [makerefinemask], as far as [numinmask] goes *)
  numinmask : Z -> fitresult -> Z;
  (** [alignvoxels], [prenorm], [dorefine], then filtering and
      normalising: [voxelsprocessed_rr] and [normoutputdata] *)
  dorefine : Z -> fitresult -> Z * list float;
  (** resampling the new candidate for the next pass *)
  nextregressor : regressor -> fitresult -> regressor;
  (** after the loop: sLFO growth, coherence, Wiener deconvolution *)
  finishrefinement : regressor -> result unit;
  (** GLM filtering and delay refinement, then the histograms *)
  glmfiltering : regressor -> result unit;
  (** saving the maps and time courses, closing the logs *)
  saveoutputs : regressor -> result unit
}.

Record loopstate (w : world) : Type := {
  stoprefining : bool;
  refinestopreason : stopreason;
  previousnormoutputdata : list float;
  theregressor : regressor w;
  passesstarted : Z
}.

Arguments stoprefining {w} _.
Arguments refinestopreason {w} _.
Arguments previousnormoutputdata {w} _.
Arguments theregressor {w} _.
Arguments passesstarted {w} _.

Definition numpasses (o : options) : Z :=
  match convergencethresh o with
  | None => passes o
  | Some _ => Z.max (passes o) (maxpasses o)
  end.

(** The guard of step 3, regressor refinement. *)
Definition refinement_due (o : options) (thepass : Z) : bool :=
  (thepass <? passes o)
  || match convergencethresh o with Some _ => true | None => false end
  || globalpreselect o.

(** "check for convergence": the new values of [stoprefining] and
    [refinestopreason]. *)
Definition check_convergence (o : options) (thepass : Z)
    (regressormse : float) (reason : stopreason) : bool * stopreason :=
  match convergencethresh o with
  | Some thresh =>
      if maxpasses o <=? thepass then (true, maxpassesreached)
      else if ltb regressormse thresh then (true, convergence)
      else (false, reason)
  | None =>
      if passes o <=? thepass then (true, passesreached)
      else (false, reason)
  end.

Definition nomask_msg : string :=
  "No voxels in refine mask - adjust thresholds or external masks"%string.

Definition refinefailed_msg : string :=
  "refinement failed - terminating at end of pass"%string.

(** Step 3 of a pass. *)
Definition refinestep (o : options) (w : world) (thepass : Z)
    (fit : fitresult w) (st : loopstate w) : W (loopstate w) :=
  if Z.eqb (numinmask w thepass fit) 0 then
    emit (Critical nomask_msg) ;;; wraise SystemExit
  else
    let '(voxelsprocessed_rr, normoutputdata) := dorefine w thepass fit in
    if 0 <? voxelsprocessed_rr then
      regressormse <~ lift (mse normoutputdata (previousnormoutputdata st)) ;;
      emit (RegressorMSE thepass regressormse) ;;;
      let '(stop, reason) :=
        check_convergence o thepass regressormse (refinestopreason st) in
      wret {| stoprefining := stop;
              refinestopreason := reason;
              previousnormoutputdata :=
                map (fun x => add x zero) normoutputdata;
              theregressor := nextregressor w (theregressor st) fit;
              passesstarted := passesstarted st |}
    else
      emit (Warning refinefailed_msg) ;;;
      wret {| stoprefining := true;
              refinestopreason := emptymask;
              previousnormoutputdata := previousnormoutputdata st;
              theregressor := theregressor st;
              passesstarted := passesstarted st |}.

(** The loop variable [thepass] keeps its value after the loop. *)
Definition enterpass {w : world} (thepass : Z) (st : loopstate w)
  : loopstate w :=
  {| stoprefining := stoprefining st;
     refinestopreason := refinestopreason st;
     previousnormoutputdata := previousnormoutputdata st;
     theregressor := theregressor st;
     passesstarted := thepass |}.

(** The refits of the despeckling of a pass: sub-passes [1] to [k]
    refit, the first sub-pass that does not refit ends step 2b. *)
Definition despecklefits (thepass : Z) (k : nat) : list event :=
  map (fun d => FitCorrDespeckling thepass (Z.of_nat d)) (seq 1 k).

(** The number of refits of step 2b: the sub-passes are those of
    [range(optiondict["despeckle_passes"])], none if that is not
    positive. *)
Definition despecklecalls (o : options) (w : world) (thepass : Z)
    (reg : regressor w) : nat :=
  Nat.min (Z.to_nat (despeckle_passes o)) (despecklerefits w thepass reg).

(** The body of the pass loop after the [if stoprefining: break]. *)
Definition onepass (o : options) (w : world) (win : Z * Z) (thepass : Z)
    (st : loopstate w) : W (loopstate w) :=
  (if check_autocorrelation o then
     emit (SetLimits theCorrelator (fst (acwindow (corrorigin w) win))
                                   (snd (acwindow (corrorigin w) win)))
   else wret tt) ;;;
  (if 0 <? numestreps o then
     emit (SetLimits theCorrelator (fst win) (snd win)) ;;;
     emit (SetLimits theMutualInformationator (fst win) (snd win)) ;;;
     emit (NullDistribution thepass)
   else wret tt) ;;;
  emit (WriteOptions (stage_precorrelation thepass)) ;;;
  (if String.eqb (similaritymetric o) "mutualinfo"%string then
     emit (SetLimits theMutualInformationator (fst win) (snd win))
   else wret tt) ;;;
  emit (CalcSimilarityPass thepass (fst win) (snd win)) ;;;
  emit (WriteOptions (stage_presimfuncfit thepass)) ;;;
  emit (FitCorr thepass) ;;;
  emitall (despecklefits thepass
             (despecklecalls o w thepass (theregressor st))) ;;;
  emit (WriteOptions (stage_prerefine thepass)) ;;;
  let fit := fitpass w thepass (theregressor st) in
  if refinement_due o thepass
  then refinestep o w thepass fit (enterpass thepass st)
  else wret (enterpass thepass st).

(** The events of a pass before its refinement step. *)
Definition passprefix (o : options) (w : world) (win : Z * Z)
    (thepass : Z) (reg : regressor w) : list event :=
  (if check_autocorrelation o
   then [SetLimits theCorrelator (fst (acwindow (corrorigin w) win))
                                 (snd (acwindow (corrorigin w) win))]
   else [])
  ++ (if 0 <? numestreps o
      then [SetLimits theCorrelator (fst win) (snd win);
            SetLimits theMutualInformationator (fst win) (snd win);
            NullDistribution thepass]
      else [])
  ++ [WriteOptions (stage_precorrelation thepass)]
  ++ (if String.eqb (similaritymetric o) "mutualinfo"%string
      then [SetLimits theMutualInformationator (fst win) (snd win)]
      else [])
  ++ [CalcSimilarityPass thepass (fst win) (snd win);
      WriteOptions (stage_presimfuncfit thepass);
      FitCorr thepass]
  ++ despecklefits thepass (despecklecalls o w thepass reg)
  ++ [WriteOptions (stage_prerefine thepass)].

(** [for thepass in range(1, numpasses + 1)], with [remaining] passes
    left in the range. *)
Fixpoint passloop (o : options) (w : world) (win : Z * Z)
    (remaining : nat) (thepass : Z) (st : loopstate w) : W (loopstate w) :=
  match remaining with
  | O => wret st
  | S remaining' =>
      if stoprefining st then wret st
      else
        st' <~ onepass o w win thepass st ;;
        passloop o w win remaining' (thepass + 1) st'
  end.

Definition initialstate (w : world) (reg : regressor w) : loopstate w :=
  {| stoprefining := false;
     refinestopreason := passesreached;
     previousnormoutputdata :=
       map (fun x => add x zero) (resampnonosref_y w reg);
     theregressor := reg;
     passesstarted := 0 |}.

(** The step of the similarity function, [oversamptr]. *)
Definition corrtr (o : options) (w : world) : float :=
  div (fmritr w) (of_Z (oversampfactor o)).

(** From the end of the pass loop to the last save of the run options. *)
Definition afterloop (w : world) (st : loopstate w)
  : W (option (loopstate w)) :=
  lift (finishrefinement w (theregressor st)) ;;;
  emit (WriteOptions stage_preglm) ;;;
  lift (glmfiltering w (theregressor st)) ;;;
  emit (WriteOptions stage_preglm) ;;;
  lift (saveoutputs w (theregressor st)) ;;;
  emit (WriteOptions stage_done) ;;;
  wret (Some st).

(** Everything between the creation of the canary file and its removal.
    The result is [None] when the run leaves through the [return] of
    [if optiondict["fakerun"]], and the state of the pass loop when it
    reaches the end of the function. *)
Definition mainbody (o : options) (w : world) : W (option (loopstate w)) :=
  emit (WriteOptions stage_init) ;;;
  lift (check_lag_bounds o (validstart w) (validend w) (fmritr w)) ;;;
  if fakerun o then
    lift (readinputs w) ;;; wret None
  else
    reg <~ lift (preprocess w) ;;
    win <~ lift (lag_window o (corrtr o w)) ;;
    emit (SetLimits theCorrelator (fst win) (snd win)) ;;;
    emit (SetLimits theMutualInformationator (fst win) (snd win)) ;;;
    (if echocancel o then emit (CalcSimilarityPass 0 (fst win) (snd win))
     else wret tt) ;;;
    emit (WriteOptions stage_preprocessingdone) ;;;
    st <~ passloop o w win (Z.to_nat (numpasses o)) 1 (initialstate w reg) ;;
    afterloop w st.

(** [Path.unlink()] without [missing_ok]. *)
Definition unlink_isrunning (fs : files) : W unit :=
  if isrunning_exists fs then emit (Unlink ISRUNNING)
  else wraise FileNotFoundError.

(** From the deletion of the old completion file to the end of the
    function: a fake run returns as it is, any other run that gets
    there removes the canary file and creates the completion file. *)
Definition rapidtide_main (o : options) (w : world) (fs0 : files)
  : W (option (loopstate w)) :=
  let started :=
    emit (Unlink DONE) ;;; emit (Touch ISRUNNING) ;;; mainbody o w in
  r <~ started ;;
  match r with
  | None => wret None
  | Some st =>
      unlink_isrunning (replay fs0 (fst started)) ;;;
      emit (Touch DONE) ;;;
      wret (Some st)
  end.

(** *** Reading a log *)

(** The number of passes a log records. *)
Definition passes_in (log : list event) : nat :=
  length (filter (fun e => match e with FitCorr _ => true | _ => false end)
                 log).

(** The lag limits an event was given, if it takes any. *)
Definition window_of (e : event) : option (Z * Z) :=
  match e with
  | SetLimits _ a b | CalcSimilarityPass _ a b => Some (a, b)
  | _ => None
  end.

Definition touches_marker (e : event) : bool :=
  match e with
  | Unlink _ | Touch _ => true
  | _ => false
  end.

Definition is_similarity (e : event) : bool :=
  match e with
  | CalcSimilarityPass _ _ _ | NullDistribution _ | FitCorr _
  | FitCorrDespeckling _ _ => true
  | _ => false
  end.

(** [theCorrelator.setlimits(...)], the one call that is made with
    limits other than the lag window. *)
Definition is_correlator_setlimits (e : event) : bool :=
  match e with
  | SetLimits theCorrelator _ _ => true
  | _ => false
  end.

(** What the pass loop and the setup around it may log: no marker is
    touched, and the limits given are the lag window, or, when the
    Correlator is set up for the check of the autocorrelation, the
    window of that check. *)
Definition pass_event_ok (o : options) (w : world) (win : Z * Z)
    (e : event) : Prop :=
  touches_marker e = false /\
  (forall x, window_of e = Some x ->
     x = win \/
     (check_autocorrelation o = true /\
      is_correlator_setlimits e = true /\
      x = acwindow (corrorigin w) win)).

(** The events between the checks and the pass loop. *)
Definition setupevents (o : options) (win : Z * Z) : list event :=
  [WriteOptions stage_init;
   SetLimits theCorrelator (fst win) (snd win);
   SetLimits theMutualInformationator (fst win) (snd win)]
  ++ (if echocancel o then [CalcSimilarityPass 0 (fst win) (snd win)] else [])
  ++ [WriteOptions stage_preprocessingdone].

(** What a run has logged when it reaches the checks of the lag
    bounds. *)
Definition startuplog : list event :=
  [Unlink DONE; Touch ISRUNNING; WriteOptions stage_init].

End Workflow.

(* ================================================================== *)
(** ** rapidtide/workflows/rapidtide.py: despeckling (step 2b) *)
(* ================================================================== *)

Module Despeckle.
Import F64.

(** [-1000000.0], the initial lag of a voxel "we're happy with". *)
Definition sentinel : float := Eval vm_compute in of_Z (-1000000).

Fixpoint set_nth (a : list float) (i : nat) (v : float)
  : option (list float) :=
  match a, i with
  | [], _ => None
  | _ :: a', O => Some (v :: a')
  | x :: a', S i' =>
      match set_nth a' i' v with
      | Some r => Some (x :: r)
      | None => None
      end
  end.

(** [a[idx] = vals] with an integer index array. *)
Fixpoint assign (a : list float) (idx : list nat) (vals : list float)
  : result (list float) :=
  match idx, vals with
  | [], [] => Ok a
  | i :: idx', v :: vals' =>
      match set_nth a i v with
      | Some a' => assign a' idx' vals'
      | None => Raise IndexError
      end
  | _, _ =>
      Raise (ValueError "shape mismatch: value array could not be broadcast to indexing result"%string None)
  end.

(** What one despeckling sub-pass saw and did. *)
Record subpass : Type := {
  lastnumdespeckled : Z;
  numdespeckled : Z;
  refitted : bool;
  lagsbefore : list float;
  medianlags : list float;
  initlags : list float;
  lagsafter : list float
}.

Record state : Type := {
  outmaparray : list float;
  lagtimes : list float;
  lastcount : Z;
  voxelsprocessed_fc_ds : Z
}.

Section Loop.
(** [ndimage.median_filter(outmaparray.reshape(nativespaceshape), 3)],
    flattened to [numspatiallocs] entries. *)
Variable median_filter : list float -> list float.
(** The peak fit of one voxel started from a given lag: the new lag. *)
Variable peakfit : nat -> float -> float.
Variable validvoxels : list nat.
Variable despeckle_thresh : float.

(** Modelled from the spec: [tide_simfuncfit.fitcorr] is not among the
    sources.  Called with [despeckling=True] it re-runs the peak fitter
    for the suspect voxels only, seeding the search with the local
    median; the voxels whose initial lag is [-1000000.0] are left as they
    are.  It returns the number of voxels it processed. *)
Definition fitcorr_despeckling (thelagtimes initiallags : list float)
  : result (Z * list float) :=
  newlags <-
    Np.map2 (fun (kl : nat * float) (init : float) =>
               if neqb init sentinel then peakfit (fst kl) init else snd kl)
            (combine (seq 0 (length thelagtimes)) thelagtimes) initiallags ;;
  Ok (Z.of_nat (Np.count_where (fun x => neqb x sentinel) initiallags),
      newlags).

Definition suspectlag (o m : float) : float :=
  if gtb (abs (sub o m)) despeckle_thresh then m else sentinel.

(** [for despecklepass in range(optiondict["despeckle_passes"])], with
    [remaining] sub-passes left in the range. *)
Fixpoint despeckleloop (remaining : nat) (st : state)
  : result (list subpass * state) :=
  match remaining with
  | O => Ok ([], st)
  | S remaining' =>
      out <- assign (map (fun x => mul x zero) (outmaparray st))
                    validvoxels (lagtimes st) ;;
      let medians := median_filter out in
      full <- Np.map2 suspectlag out medians ;;
      inits <- Np.take full validvoxels ;;
      let num := Z.of_nat (Np.count_where (fun x => neqb x sentinel) inits) in
      if (0 <? Z.of_nat (length inits))
         && ((num <? lastcount st) && (0 <? num)) then
        fitted <- fitcorr_despeckling (lagtimes st) inits ;;
        rest <- despeckleloop remaining'
                  {| outmaparray := out;
                     lagtimes := snd fitted;
                     lastcount := num;
                     voxelsprocessed_fc_ds :=
                       voxelsprocessed_fc_ds st + fst fitted |} ;;
        Ok ({| lastnumdespeckled := lastcount st;
               numdespeckled := num;
               refitted := true;
               lagsbefore := lagtimes st;
               medianlags := medians;
               initlags := inits;
               lagsafter := snd fitted |} :: fst rest, snd rest)
      else
        Ok ([{| lastnumdespeckled := lastcount st;
                numdespeckled := num;
                refitted := false;
                lagsbefore := lagtimes st;
                medianlags := medians;
                initlags := inits;
                lagsafter := lagtimes st |}],
            {| outmaparray := out;
               lagtimes := lagtimes st;
               lastcount := lastcount st;
               voxelsprocessed_fc_ds := voxelsprocessed_fc_ds st |})
  end.

(** Step 2b as [rapidtide_main] enters it. *)
Definition despeckle (despeckle_passes : Z) (outmap lags : list float)
  : result (list subpass * state) :=
  despeckleloop (Z.to_nat despeckle_passes)
    {| outmaparray := outmap;
       lagtimes := lags;
       lastcount := 1000000;
       voxelsprocessed_fc_ds := 0 |}.

End Loop.

End Despeckle.

(* ================================================================== *)
(** ** rapidtide/workflows/rapidtide.py: masks of the refinement step *)
(* ================================================================== *)

Module Masks.
Import F64.

(** [fitmask], [offsetmask] and [overallmask] are [uint16] arrays that
    are written in place; they live in a store and the variables hold
    references, so that two variables can name one array. *)
Definition ref : Type := nat.
Definition store : Type := list (list Z).

Definition load (h : store) (r : ref) : list Z := nth r h [].

Fixpoint save (h : store) (r : ref) (a : list Z) : store :=
  match h, r with
  | [], _ => []
  | _ :: h', O => a :: h'
  | x :: h', S r' => x :: save h' r' a
  end.

(** [np.uint16(a)] for an array [a] whose dtype is [uint16] already:
    numpy's scalar types convert an array argument as [np.asarray] does,
    without a copy when the dtype matches, so the result is the array
    [a] itself. *)
Definition np_uint16 (h : store) (a : ref) : store * ref := (h, a).

(** [a[np.where(cond)] = 0]. *)
Fixpoint zero_where (a : list Z) (cond : list bool) : result (list Z) :=
  match cond, a with
  | [], _ => Ok a
  | c :: cond', x :: a' =>
      rest <- zero_where a' cond' ;; Ok ((if c then 0 else x) :: rest)
  | c :: cond', [] =>
      if existsb (fun b => b) cond then Raise IndexError else Ok []
  end.

Definition zero_where_in (h : store) (r : ref) (cond : list bool)
  : result store :=
  a <- zero_where (load h r) cond ;; Ok (save h r a).

(** Modelled from the spec: [tide_stats.getmasksize] is not among the
    sources; the size of a mask is the number of voxels it selects, the
    entries greater than zero. *)
Definition getmasksize (themask : list Z) : Z :=
  Z.of_nat (Np.count_where (fun x => 0 <? x) themask).

Definition offset_msg : string :=
  "NB: cannot exclude voxels from offset calculation mask - including for this pass"%string.

Definition despeckled_msg : string :=
  "NB: cannot exclude despeckled voxels from refinement - including for this pass"%string.

(** The mask of the offset calculation ([refineoffset]): the store
    afterwards, the array [offsetmask] names and the warnings logged. *)
Definition offsetmask_step (h : store) (fitmask : ref)
    (internaloffsetincludemask_valid internaloffsetexcludemask_valid
       : option (list float))
  : result (store * ref * list string) :=
  let '(h0, offsetmask) := np_uint16 h fitmask in
  h1 <- match internaloffsetincludemask_valid with
        | Some inc =>
            zero_where_in h0 offsetmask (map (fun x => eqb x zero) inc)
        | None => Ok h0
        end ;;
  h2 <- match internaloffsetexcludemask_valid with
        | Some exc =>
            zero_where_in h1 offsetmask (map (fun x => neqb x zero) exc)
        | None => Ok h1
        end ;;
  if getmasksize (load h2 offsetmask) =? 0 then
    Ok (h2, fitmask, [offset_msg])
  else Ok (h2, offsetmask, []).

(** The lags the offset histogram is computed from:
    [lagtimes[np.where(offsetmask > 0)]]. *)
Fixpoint select_positive (lagtimes : list float) (mask : list Z)
  : list float :=
  match lagtimes, mask with
  | l :: ls, m :: ms =>
      if 0 <? m then l :: select_positive ls ms else select_positive ls ms
  | _, _ => []
  end.

(** The exclude mask with the despeckled voxels added. *)
Definition withdespeckled (internalrefineexcludemask_valid : option (list float))
    (despeckled : list float) : result (list float) :=
  match internalrefineexcludemask_valid with
  | None =>
      Ok (map (fun d => if eqb d zero then zero else one) despeckled)
  | Some exc =>
      Np.map2 (fun e d =>
                 if neqb d zero then one
                 else if gtb e zero then one else zero)
              exc despeckled
  end.

(** The exclude mask handed to [makerefinemask]:
    [thisinternalrefineexcludemask_valid], with the store afterwards and
    the warnings logged.  [despeckled] is
    [internaldespeckleincludemask[validvoxels]]. *)
Definition refineexcludemask_step (h : store) (fitmask : ref)
    (refinedespeckled : bool) (despeckle_passes : Z)
    (internalrefineincludemask_valid internalrefineexcludemask_valid
       : option (list float))
    (despeckled : list float)
  : result (store * option (list float) * list string) :=
  if refinedespeckled || (despeckle_passes =? 0) then
    Ok (h, internalrefineexcludemask_valid, [])
  else
    this <- withdespeckled internalrefineexcludemask_valid despeckled ;;
    let '(h0, overallmask) := np_uint16 h fitmask in
    h1 <- match internalrefineincludemask_valid with
          | Some inc =>
              zero_where_in h0 overallmask (map (fun x => eqb x zero) inc)
          | None => Ok h0
          end ;;
    h2 <- zero_where_in h1 overallmask (map (fun x => neqb x zero) this) ;;
    if getmasksize (load h2 overallmask) =? 0 then
      Ok (h2, internalrefineexcludemask_valid, [despeckled_msg])
    else Ok (h2, Some this, []).

End Masks.

(* ================================================================== *)
(** ** Sample inputs *)
(* ================================================================== *)

Module Samples.
Import F64.

(** [1.0], [3.0] and [0.5] as [float32] numbers. *)
Definition one32 : float := S754_finite false 8388608 (-23).
Definition three32 : float := S754_finite false 12582912 (-22).
Definition half32 : float := S754_finite false 8388608 (-24).

(** A calibration with the identity as spline on the range [-1, 1]. *)
Definition unit_range_globals : RefineDelay.globals :=
  {| RefineDelay.ratiotooffsetfunc := fun x => x;
     RefineDelay.maplimits := (of_Z (-1), of_Z 1) |}.

(** Stand-ins for the library routines of [filterderivratios]: a MAD of
    one, a map that holds exactly the valid voxels, and a median filter
    that returns zero everywhere. *)
Definition unit_mad (_ : list float) : float := one.
Definition dense_populatemap (themap : list float) (_ : list nat)
  : result (list float) := Ok themap.
Definition zero_median_filter (themap : list float) : list float :=
  map (fun _ => zero) themap.

(** Run options with the similarity metric ["correlation"], three
    passes and at most five with a convergence threshold, and up to
    four despeckling sub-passes. *)
Definition sample_options (lagmin lagmax : float) (oversampfactor : Z)
    (convergencethresh : option float) (fakerun check_autocorrelation : bool)
  : Workflow.options :=
  {| Workflow.lagmin := lagmin;
     Workflow.lagmax := lagmax;
     Workflow.oversampfactor := oversampfactor;
     Workflow.passes := 3;
     Workflow.maxpasses := 5;
     Workflow.convergencethresh := convergencethresh;
     Workflow.globalpreselect := false;
     Workflow.echocancel := false;
     Workflow.numestreps := 0;
     Workflow.fakerun := fakerun;
     Workflow.check_autocorrelation := check_autocorrelation;
     Workflow.similaritymetric := "correlation"%string;
     Workflow.despeckle_passes := 4 |}.

(** A run over [-30, 30] seconds at a TR of one second, oversampled
    twice, that may take up to five passes to converge. *)
Definition options30 : Workflow.options :=
  sample_options (of_Z (-30)) (of_Z 30) 2 (Some half) false false.

(** The same run without a convergence threshold, as a fake run, and
    with the check of the autocorrelation. *)
Definition options30_fixed : Workflow.options :=
  sample_options (of_Z (-30)) (of_Z 30) 2 None false false.
Definition options30_fake : Workflow.options :=
  sample_options (of_Z (-30)) (of_Z 30) 2 (Some half) true false.
Definition options30_autocorr : Workflow.options :=
  sample_options (of_Z (-30)) (of_Z 30) 2 (Some half) false true.

(** Lag ranges that are too narrow, not a number, too wide, and not
    symmetric. *)
Definition options_narrow : Workflow.options :=
  sample_options (of_Z (-1)) (of_Z 1) 1 None false false.
Definition options_nanlagmin : Workflow.options :=
  sample_options S754_nan (of_Z 30) 2 None false false.
Definition options_wide : Workflow.options :=
  sample_options (of_Z (-60)) (of_Z 30) 2 None false false.
Definition options_10_30 : Workflow.options :=
  sample_options (of_Z (-10)) (of_Z 30) 2 None false false.

(** Collaborators that always find [nmask] voxels for the refine mask,
    process [nvoxels] of them and return the same two-point regressor;
    the despeckling of every pass refits in [refits] sub-passes. *)
Definition steady_world_with (refits : nat) (nmask nvoxels : Z)
  : Workflow.world :=
  {| Workflow.regressor := unit;
     Workflow.fitresult := unit;
     Workflow.fmritr := one;
     Workflow.validstart := 0;
     Workflow.validend := 99;
     Workflow.corrorigin := 100;
     Workflow.readinputs := Ok tt;
     Workflow.preprocess := Ok tt;
     Workflow.resampnonosref_y := fun _ => [one; zero];
     Workflow.despecklerefits := fun _ _ => refits;
     Workflow.fitpass := fun _ _ => tt;
     Workflow.numinmask := fun _ _ => nmask;
     Workflow.dorefine := fun _ _ => (nvoxels, [one; zero]);
     Workflow.nextregressor := fun _ _ => tt;
     Workflow.finishrefinement := fun _ => Ok tt;
     Workflow.glmfiltering := fun _ => Ok tt;
     Workflow.saveoutputs := fun _ => Ok tt |}.

Definition steady_world : Z -> Z -> Workflow.world := steady_world_with 0.

(** Collaborators whose candidate regressor moves away from the probe:
    the metric of the first pass is [0.5]. *)
Definition moving_world : Workflow.world :=
  {| Workflow.regressor := unit;
     Workflow.fitresult := unit;
     Workflow.fmritr := one;
     Workflow.validstart := 0;
     Workflow.validend := 99;
     Workflow.corrorigin := 100;
     Workflow.readinputs := Ok tt;
     Workflow.preprocess := Ok tt;
     Workflow.resampnonosref_y := fun _ => [one; zero];
     Workflow.despecklerefits := fun _ _ => 0%nat;
     Workflow.fitpass := fun _ _ => tt;
     Workflow.numinmask := fun _ _ => 5;
     Workflow.dorefine := fun _ _ => (5, [zero; zero]);
     Workflow.nextregressor := fun _ _ => tt;
     Workflow.finishrefinement := fun _ => Ok tt;
     Workflow.glmfiltering := fun _ => Ok tt;
     Workflow.saveoutputs := fun _ => Ok tt |}.

Definition fresh_files : Workflow.files :=
  {| Workflow.isrunning_exists := false; Workflow.done_exists := true |}.

End Samples.

(* ================================================================== *)
(** * Properties *)
(* ================================================================== *)

(** ** Binary64: conversions and order *)

Module F64Facts.
Import F64.

Example to_int_trunc_pos :
  to_int (add (of_Z 59) half) = Some 59.
Proof. vm_compute. reflexivity. Qed.

Example to_int_trunc_neg :
  to_int (sub (of_Z (-59)) half) = Some (-59).
Proof. vm_compute. reflexivity. Qed.

(** *** Order facts about [SFcompare] *)

Lemma compare_antisym (a b : float) :
  SFcompare b a = option_map CompOpp (SFcompare a b).
Proof.
  destruct a as [[]|[]| |[] ma ea], b as [[]|[]| |[] mb eb];
    simpl; try reflexivity;
    rewrite (Z.compare_antisym ea eb);
    destruct (ea ?= eb); simpl; try reflexivity;
    change (Pos.compare_cont Eq mb ma) with (Pos.compare mb ma);
    change (Pos.compare_cont Eq ma mb) with (Pos.compare ma mb);
    rewrite (Pos.compare_antisym ma mb);
    try rewrite CompOpp_involutive; reflexivity.
Qed.

Lemma leb_not_gtb (a b : float) : leb a b = true -> gtb a b = false.
Proof.
  unfold leb, gtb, SFleb, SFltb. rewrite (compare_antisym a b).
  destruct (SFcompare a b) as [[]|]; simpl; congruence.
Qed.

Lemma leb_not_nan_l (a b : float) : leb a b = true -> is_nan a = false.
Proof.
  unfold leb, SFleb.
  destruct a as [[]|[]| |[] ma ea]; simpl; congruence.
Qed.

Lemma leb_not_nan_r (a b : float) : leb a b = true -> is_nan b = false.
Proof.
  unfold leb, SFleb.
  destruct a as [[]|[]| |[] ma ea], b as [[]|[]| |[] mb eb];
    simpl; congruence.
Qed.

Lemma leb_refl (a : float) : is_nan a = false -> leb a a = true.
Proof.
  destruct a as [[]|[]| |[] ma ea]; simpl; try congruence; intros _;
    unfold leb, SFleb; simpl; try reflexivity;
    rewrite Z.compare_refl;
    change (Pos.compare_cont Eq ma ma) with (Pos.compare ma ma);
    rewrite Pos.compare_refl; reflexivity.
Qed.

(** On floats that are not NaN the order is total. *)
Lemma not_ltb_leb (a b : float) :
  is_nan a = false -> is_nan b = false -> ltb a b = false -> leb b a = true.
Proof.
  unfold ltb, leb, SFltb, SFleb. rewrite (compare_antisym a b).
  destruct a as [[]|[]| |[] ma ea], b as [[]|[]| |[] mb eb];
    simpl; try congruence;
    destruct (ea ?= eb); simpl; try congruence;
    destruct (Pos.compare_cont Eq ma mb); simpl; congruence.
Qed.

Ltac order_cases :=
  repeat match goal with
  | H : context [Pos.compare_cont Eq ?x ?y] |- _ =>
      change (Pos.compare_cont Eq x y) with (Pos.compare x y) in H
  | |- context [Pos.compare_cont Eq ?x ?y] =>
      change (Pos.compare_cont Eq x y) with (Pos.compare x y)
  end;
  repeat match goal with
  | H : context [Z.compare ?x ?y] |- _ =>
      destruct (Z.compare_spec x y); simpl in H; try discriminate H
  | H : context [Pos.compare ?x ?y] |- _ =>
      destruct (Pos.compare_spec x y); simpl in H; try discriminate H
  end;
  repeat match goal with
  | |- context [Z.compare ?x ?y] =>
      destruct (Z.compare_spec x y); simpl
  | |- context [Pos.compare ?x ?y] =>
      destruct (Pos.compare_spec x y); simpl
  end;
  subst; try reflexivity; try discriminate; try lia.

Lemma leb_ltb_trans (a b c : float) :
  leb a b = true -> ltb b c = true -> ltb a c = true.
Proof.
  unfold leb, ltb, SFleb, SFltb.
  destruct a as [[]|[]| |[] ma ea], b as [[]|[]| |[] mb eb],
           c as [[]|[]| |[] mc ec];
    simpl; intros H1 H2; try discriminate; try reflexivity; order_cases.
Qed.

(** *** Rounding never turns a positive integer into zero or NaN *)

Lemma shr_1_m (mrs : shr_record) :
  0 <= shr_m mrs ->
  shr_m (shr_1 mrs) = shr_m mrs / 2 /\ 0 <= shr_m (shr_1 mrs).
Proof.
  destruct mrs as [m r s]; cbn [shr_1 shr_m]. intros Hm.
  destruct m as [|[p|p|]|p]; cbn [shr_1 shr_m]; try lia;
    (split; [|lia]).
  - reflexivity.
  - apply Z.div_unique with 1; lia.
  - apply Z.div_unique with 0; lia.
  - reflexivity.
Qed.

Lemma iter_shr_1_m (n : positive) :
  forall mrs, 0 <= shr_m mrs ->
    shr_m (iter_pos shr_1 n mrs) = shr_m mrs / 2 ^ Zpos n /\
    0 <= shr_m (iter_pos shr_1 n mrs).
Proof.
  induction n as [n IH|n IH|]; intros mrs Hm; cbn [iter_pos].
  - destruct (shr_1_m mrs Hm) as [E1 P1].
    destruct (IH _ P1) as [E2 P2].
    destruct (IH _ P2) as [E3 P3].
    split; [|exact P3].
    rewrite E3, E2, E1.
    rewrite !Z.div_div by lia.
    f_equal.
    replace (Z.pos n~1) with (1 + Z.pos n + Z.pos n) by lia.
    rewrite !Z.pow_add_r by lia. change (2 ^ 1) with 2. ring.
  - destruct (IH _ Hm) as [E2 P2].
    destruct (IH _ P2) as [E3 P3].
    split; [|exact P3].
    rewrite E3, E2.
    rewrite !Z.div_div by lia.
    f_equal.
    replace (Z.pos n~0) with (Z.pos n + Z.pos n) by lia.
    rewrite !Z.pow_add_r by lia. ring.
  - destruct (shr_1_m mrs Hm) as [E1 P1]. split; [|exact P1].
    rewrite E1. reflexivity.
Qed.

Lemma digits2_pos_lower (m : positive) :
  2 ^ (Zpos (digits2_pos m) - 1) <= Zpos m.
Proof.
  induction m as [m IH|m IH|]; cbn [digits2_pos].
  - rewrite Pos2Z.inj_succ.
    replace (Z.succ (Zpos (digits2_pos m)) - 1)
      with (1 + (Zpos (digits2_pos m) - 1)) by lia.
    rewrite Z.pow_add_r by lia. lia.
  - rewrite Pos2Z.inj_succ.
    replace (Z.succ (Zpos (digits2_pos m)) - 1)
      with (1 + (Zpos (digits2_pos m) - 1)) by lia.
    rewrite Z.pow_add_r by lia. lia.
  - reflexivity.
Qed.

Lemma shr_fexp_positive (m e : Z) (l : location) :
  0 < m -> emin prec emax <= e ->
  0 < shr_m (fst (shr_fexp prec emax m e l)) /\
  emin prec emax <= snd (shr_fexp prec emax m e l).
Proof.
  intros Hm He. unfold shr_fexp, shr.
  assert (Hrec : shr_m (shr_record_of_loc m l) = m)
    by (destruct l as [|[]]; reflexivity).
  destruct (fexp prec emax (Zdigits2 m + e) - e) as [|n|n] eqn:En; simpl;
    try (rewrite Hrec; lia).
  destruct (iter_shr_1_m n (shr_record_of_loc m l)) as [E P];
    [rewrite Hrec; lia|].
  rewrite E, Hrec. split; [|lia].
  destruct m as [|mp|mp]; try lia. cbn [Zdigits2] in En.
  unfold fexp, emin, prec, emax in *.
  pose proof (digits2_pos_lower mp) as Hd.
  apply Z.div_str_pos. split; [apply Z.pow_pos_nonneg; lia|].
  apply Z.le_trans with (2 ^ (Zpos (digits2_pos mp) - 1)); [|exact Hd].
  apply Z.pow_le_mono_r; lia.
Qed.

Lemma binary_round_aux_positive (sx : bool) (m e : Z) (l : location) :
  0 < m -> emin prec emax <= e ->
  (exists mz ez, binary_round_aux prec emax sx m e l = S754_finite sx mz ez)
  \/ binary_round_aux prec emax sx m e l = S754_infinity sx.
Proof.
  intros Hm He. unfold binary_round_aux.
  destruct (shr_fexp_positive m e l Hm He) as [P1 Q1].
  destruct (shr_fexp prec emax m e l) as [mrs' e']; simpl in P1, Q1.
  assert (Hr : 0 < round_nearest_even (shr_m mrs') (loc_of_shr_record mrs')).
  { unfold round_nearest_even.
    destruct (loc_of_shr_record mrs') as [|[]]; try lia.
    destruct (Z.even (shr_m mrs')); lia. }
  destruct (shr_fexp_positive _ e' loc_Exact Hr Q1) as [P2 Q2].
  destruct (shr_fexp prec emax _ e' loc_Exact) as [mrs'' e''];
    simpl in P2, Q2.
  destruct (shr_m mrs'') as [|mz|mz]; try lia.
  destruct (e'' <=? emax - prec); [left; eauto | right; reflexivity].
Qed.

Lemma of_Z_positive (p : positive) :
  (exists mz ez, of_Z (Zpos p) = S754_finite false mz ez)
  \/ of_Z (Zpos p) = S754_infinity false.
Proof.
  unfold of_Z, binary_normalize, binary_round, shl_align.
  destruct (fexp prec emax (Zpos (digits2_pos p) + 0) - 0) as [|d|d] eqn:Ed;
    apply binary_round_aux_positive; try lia;
    try (unfold emin, prec, emax; lia).
  unfold fexp, emin, prec, emax in *. lia.
Qed.

Lemma div_zero_of_Z_positive (p : positive) :
  div zero (of_Z (Zpos p)) = zero.
Proof.
  unfold div.
  destruct (of_Z_positive p) as [(mz & ez & E)|E]; rewrite E; reflexivity.
Qed.

Lemma sub_diag_finite (x : float) : is_finite x = true -> sub x x = zero.
Proof.
  destruct x as [[]|[]| |s m e]; simpl; try discriminate;
    intros _; try reflexivity.
  unfold sub, SFsub. rewrite Z.sub_diag. reflexivity.
Qed.

Lemma ltb_leb (a b : float) : ltb a b = true -> leb a b = true.
Proof.
  unfold ltb, leb, SFltb, SFleb.
  destruct (SFcompare a b) as [[]|]; congruence.
Qed.

Lemma ltb_trans (a b c : float) :
  ltb a b = true -> ltb b c = true -> ltb a c = true.
Proof. intros H1 H2. eapply leb_ltb_trans; [apply ltb_leb|]; eassumption. Qed.

Lemma ltb_irrefl (a : float) : ltb a a = false.
Proof.
  destruct (is_nan a) eqn:E.
  - destruct a; try discriminate. reflexivity.
  - apply (leb_not_gtb a a). apply leb_refl. exact E.
Qed.


End F64Facts.

(** ** Array helpers *)

Module NpFacts.
Import Np.

Lemma map2_ok {A B C : Type} (f : A -> B -> C) :
  forall xs ys, length xs = length ys ->
    exists zs, map2 f xs ys = Ok zs.
Proof.
  induction xs as [|x xs IH]; intros [|y ys] Hlen; simpl in *;
    try discriminate; eauto.
  destruct (IH ys) as [zs Hzs]; [congruence|].
  rewrite Hzs. simpl. eauto.
Qed.

Lemma map2_length {A B C : Type} (f : A -> B -> C) :
  forall xs ys zs, map2 f xs ys = Ok zs ->
    length zs = length xs /\ length zs = length ys.
Proof.
  induction xs as [|x xs IH]; intros [|y ys] zs H; simpl in *;
    try discriminate.
  - inversion H; subst. auto.
  - destruct (map2 f xs ys) as [rest|e] eqn:E; simpl in H; try discriminate.
    inversion H; subst. destruct (IH ys rest E). simpl. auto.
Qed.

Lemma map2_nth {A B C : Type} (f : A -> B -> C) :
  forall xs ys zs, map2 f xs ys = Ok zs ->
    forall i x y, nth_error xs i = Some x -> nth_error ys i = Some y ->
      nth_error zs i = Some (f x y).
Proof.
  induction xs as [|x xs IH]; intros [|y ys] zs H; simpl in *;
    try discriminate.
  - intros [|i] x0 y0 Hx; simpl in Hx; discriminate.
  - destruct (map2 f xs ys) as [rest|e] eqn:E; simpl in H; try discriminate.
    inversion H; subst. intros [|i] x0 y0 Hx Hy; simpl in *.
    + congruence.
    + eapply IH; eauto.
Qed.

Lemma take_length {A : Type} (a : list A) :
  forall idx out, take a idx = Ok out -> length out = length idx.
Proof.
  induction idx as [|i idx IH]; intros out H; simpl in *.
  - inversion H; reflexivity.
  - destruct (nth_error a i); try discriminate.
    destruct (take a idx) as [rest|e]; simpl in H; try discriminate.
    inversion H; subst. simpl. f_equal. apply IH. reflexivity.
Qed.

Lemma take_nth {A : Type} (a : list A) :
  forall idx out, take a idx = Ok out ->
    forall k i, nth_error idx k = Some i ->
      nth_error out k = nth_error a i /\ nth_error a i <> None.
Proof.
  induction idx as [|j idx IH]; intros out H k i Hk; simpl in *.
  - destruct k; discriminate.
  - destruct (nth_error a j) as [v|] eqn:Ej; try discriminate.
    destruct (take a idx) as [rest|e] eqn:Et; simpl in H; try discriminate.
    inversion H; subst. destruct k as [|k]; simpl in *.
    + inversion Hk; subst. rewrite Ej. split; congruence.
    + eapply IH; eauto.
Qed.

Lemma take_ok {A : Type} (a : list A) :
  forall idx, Forall (fun i => (i < length a)%nat) idx ->
    exists out, take a idx = Ok out.
Proof.
  induction 1 as [|i idx Hi _ IH]; simpl; [eauto|].
  destruct (nth_error a i) as [v|] eqn:E.
  - destruct IH as [rest Hrest]. rewrite Hrest. simpl. eauto.
  - apply nth_error_None in E. lia.
Qed.

Lemma count_where_le_length {A : Type} (p : A -> bool) (a : list A) :
  (count_where p a <= length a)%nat.
Proof. unfold count_where. apply filter_length_le. Qed.


End NpFacts.

(** ** Delay refinement *)

Module RefineDelayFacts.
Import F64 F64Facts NpFacts RefineDelay.

Example derivratio_plain :
  derivratio float64 (of_Z 4, of_Z 2) = half.
Proof. vm_compute. reflexivity. Qed.

Example derivratio_unfit_voxel :
  derivratio float32 (zero, zero) = zero /\
  derivratio float64 (zero, zero) = zero.
Proof. split; reflexivity. Qed.

(** One third in single and in double precision: the quotient is
    rounded to the precision of the coefficients. *)
Example derivratio_rounds_in_dtype :
  derivratio float32 (Samples.three32, Samples.one32)
    = S754_finite false 11184811 (-25) /\
  derivratio float64 (of_Z 3, one)
    = S754_finite false 6004799503160661 (-54).
Proof. split; vm_compute; reflexivity. Qed.

(** A quotient too large for the dtype is an infinity, and comes out as
    the largest finite number. *)
Example derivratio_overflow :
  derivratio float32 (Samples.half32, finfo_max float32) = finfo_max float32.
Proof. vm_compute. reflexivity. Qed.

(** *** Derivative ratios stay finite *)

Lemma nan_to_num_finite (dtype : floattype) (x : float) :
  is_finite (nan_to_num_as dtype x) = true.
Proof. destruct dtype, x as [s|[]| |s m e]; reflexivity. Qed.

Lemma finfo_max_values :
  finfo_max float32 = S754_finite false 16777215 104 /\
  finfo_max float64 = S754_finite false 9007199254740991 971.
Proof. split; reflexivity. Qed.

(** C10, as the code has it: the ratio of a voxel is
    [nan_to_num (fitcoeff[:, 1] / fitcoeff[:, 0])] in the dtype of
    [fitcoeff]; it is always a finite number, whatever the two
    coefficients are.  A quotient that is NaN (in particular one with a
    NaN operand) gives [0.0], an infinite quotient gives the largest
    finite number of the dtype with the sign of the quotient, and a
    finite quotient is returned as it is.  When the base coefficient is
    zero the ratio is [0.0] only if the derivative coefficient is zero
    or NaN; any other derivative coefficient gives an infinite quotient.
    The largest finite number is [(2^24 - 1) * 2^104] for [float32] and
    [(2^53 - 1) * 2^971] for [float64]. *)
Theorem derivratio_finite_and_zero_base
    (dtype : floattype) (row : float * float) (s : bool) (c0 c1 : float) :
  is_finite (derivratio dtype row) = true /\
  derivratio dtype (S754_zero s, c1) =
    match c1 with
    | S754_zero _ | S754_nan => zero
    | S754_infinity s1 | S754_finite s1 _ _ =>
        if xorb s1 s then opp (finfo_max dtype) else finfo_max dtype
    end /\
  (is_nan c0 = true \/ is_nan c1 = true ->
   derivratio dtype (c0, c1) = zero) /\
  (is_nan (divide dtype c1 c0) = true ->
   derivratio dtype (c0, c1) = zero) /\
  (forall sq, divide dtype c1 c0 = S754_infinity sq ->
     derivratio dtype (c0, c1)
       = if sq then opp (finfo_max dtype) else finfo_max dtype) /\
  (is_finite (divide dtype c1 c0) = true ->
   derivratio dtype (c0, c1) = divide dtype c1 c0) /\
  finfo_max float32 = S754_finite false 16777215 104 /\
  finfo_max float64 = S754_finite false 9007199254740991 971.
Proof.
  split; [apply nan_to_num_finite|].
  split.
  { unfold derivratio, divide; cbn [fst snd].
    destruct c1 as [[]|[]| |[] m e], s; reflexivity. }
  split.
  { intros [H|H]; unfold derivratio, divide; cbn [fst snd].
    - destruct c0; try discriminate H. destruct c1; reflexivity.
    - destruct c1; try discriminate H. reflexivity. }
  split.
  { intros H. unfold derivratio; cbn [fst snd].
    destruct (divide dtype c1 c0); try discriminate H. reflexivity. }
  split.
  { intros sq H. unfold derivratio; cbn [fst snd]. rewrite H.
    destruct sq; reflexivity. }
  split.
  { intros H. unfold derivratio; cbn [fst snd].
    destruct (divide dtype c1 c0); try discriminate H; reflexivity. }
  exact finfo_max_values.
Qed.

Lemma derivratio_finite_and_zero_base_witness :
  derivratio float32 (zero, S754_nan) = zero /\
  derivratio float32 (Samples.half32, finfo_max float32)
    = finfo_max float32 /\
  derivratio float32 (Samples.three32, Samples.one32)
    = divide float32 Samples.one32 Samples.three32.
Proof.
  destruct (derivratio_finite_and_zero_base
              float32 (zero, zero) false zero S754_nan)
    as (_ & _ & Hnan & _).
  destruct (derivratio_finite_and_zero_base
              float32 (zero, zero) false Samples.half32 (finfo_max float32))
    as (_ & _ & _ & _ & Hinf & _).
  destruct (derivratio_finite_and_zero_base
              float32 (zero, zero) false Samples.three32 Samples.one32)
    as (_ & _ & _ & _ & _ & Hfin & _).
  split; [apply Hnan; right; reflexivity|].
  split; [apply (Hinf false); vm_compute; reflexivity|].
  apply Hfin. vm_compute. reflexivity.
Defined.

(** C10, as stated, fails: a voxel whose base coefficient is [0.0] and
    whose derivative coefficient is [1.0] gets the largest finite number
    of the dtype as its ratio, [3.4028235e38] in single precision and
    [1.7976931348623157e308] in double precision, which is not zero. *)
Lemma derivratio_zero_base_not_zero :
  is_zero (fst (zero, Samples.one32)) = true /\
  derivratio float32 (zero, Samples.one32)
    = S754_finite false 16777215 104 /\
  eqb (derivratio float32 (zero, Samples.one32)) zero = false /\
  derivratio float64 (zero, one)
    = S754_finite false 9007199254740991 971 /\
  eqb (derivratio float64 (zero, one)) zero = false.
Proof. repeat split. Qed.

(** *** Clamping to the trained ratio range *)

(** C4: with [maplimits[0] <= maplimits[1]], [ratiotodelay] evaluates
    the trained spline at the ratio itself when the ratio lies in the
    range, at [maplimits[0]] when it is below and at [maplimits[1]] when
    it is above; for a ratio that is a number the spline is never
    evaluated outside the trained range. *)
Theorem ratiotodelay_clamps (g : globals) (theratio : float)
    (Hrange : leb (fst (maplimits g)) (snd (maplimits g)) = true) :
  ratiotodelay g theratio = ratiotooffsetfunc g (clampedratio g theratio) /\
  (leb (fst (maplimits g)) theratio = true ->
   leb theratio (snd (maplimits g)) = true ->
   ratiotodelay g theratio = ratiotooffsetfunc g theratio) /\
  (ltb theratio (fst (maplimits g)) = true ->
   ratiotodelay g theratio = ratiotooffsetfunc g (fst (maplimits g))) /\
  (gtb theratio (snd (maplimits g)) = true ->
   ratiotodelay g theratio = ratiotooffsetfunc g (snd (maplimits g))) /\
  (is_nan theratio = false ->
   leb (fst (maplimits g)) (clampedratio g theratio) = true /\
   leb (clampedratio g theratio) (snd (maplimits g)) = true).
Proof.
  destruct g as [f [lo hi]]; simpl in *.
  unfold ratiotodelay, clampedratio; simpl.
  pose proof (leb_not_nan_l _ _ Hrange) as Hlo.
  pose proof (leb_not_nan_r _ _ Hrange) as Hhi.
  split; [|split; [|split; [|split]]].
  - destruct (ltb theratio lo); [reflexivity|].
    destruct (gtb theratio hi); reflexivity.
  - intros H1 H2.
    apply leb_not_gtb in H1. unfold gtb in H1. fold (ltb theratio lo) in H1.
    apply leb_not_gtb in H2.
    rewrite H1, H2. reflexivity.
  - intros H. rewrite H. reflexivity.
  - intros H.
    assert (Hlt : ltb lo theratio = true)
      by (eapply leb_ltb_trans; [exact Hrange | exact H]).
    assert (Hn : ltb theratio lo = false).
    { apply (leb_not_gtb lo theratio).
      unfold leb, ltb, SFleb, SFltb in *.
      destruct (SFcompare lo theratio) as [[]|]; congruence. }
    rewrite Hn, H. reflexivity.
  - intros Hnan.
    destruct (ltb theratio lo) eqn:E1.
    + split; [apply leb_refl; assumption | assumption].
    + destruct (gtb theratio hi) eqn:E2.
      * split; [assumption | apply leb_refl; assumption].
      * split.
        -- apply not_ltb_leb; assumption.
        -- apply not_ltb_leb; assumption.
Qed.

Lemma ratiotodelay_clamps_witness :
  leb (fst (maplimits Samples.unit_range_globals))
      (snd (maplimits Samples.unit_range_globals)) = true /\
  ratiotodelay Samples.unit_range_globals (of_Z 5) = of_Z 1.
Proof.
  split; [reflexivity|].
  destruct (ratiotodelay_clamps Samples.unit_range_globals (of_Z 5) eq_refl)
    as (_ & _ & _ & Habove & _).
  rewrite Habove; reflexivity.
Defined.

(** *** Outlier patching and the corrected lag map *)

Section PatchingFacts.
Variable mad : list float -> float.
Variable populatemap : list float -> list nat -> result (list float).
Variable median_filter : list float -> list float.

(** C5: for volumetric input, [filterderivratios] returns the median
    filtered map read at the valid voxels together with the patched
    ratios: a voxel keeps its raw ratio unless
    [|ratio - medfilt| > patchthresh * MAD], in which case it takes the
    median-filtered value; and the corrected lag of every voxel is its
    coarse lag plus [ratiotodelay] of its patched ratio. *)
Theorem patched_ratios_and_corrected_lags
    (g : globals) (glmderivratio lagtimes : list float)
    (validvoxels : list nat) (patchthresh : float)
    (mapped medfilt : list float)
    (Hmap : populatemap glmderivratio validvoxels = Ok mapped)
    (Hmed : Np.take (median_filter mapped) validvoxels = Ok medfilt)
    (Hvox : length validvoxels = length glmderivratio)
    (Hlag : length lagtimes = length glmderivratio) :
  exists filtered corrected,
    filterderivratios mad populatemap median_filter
      glmderivratio validvoxels patchthresh false false
      = Ok (medfilt, filtered) /\
    lagtimescorrected g lagtimes filtered = Ok corrected /\
    forall i ratio med lag,
      nth_error glmderivratio i = Some ratio ->
      nth_error medfilt i = Some med ->
      nth_error lagtimes i = Some lag ->
      let patched :=
        if gtb (abs (sub ratio med)) (mul patchthresh (mad glmderivratio))
        then med else ratio in
      nth_error filtered i = Some patched /\
      nth_error corrected i = Some (add lag (ratiotodelay g patched)).
Proof.
  pose proof (take_length _ _ _ Hmed) as Hlen.
  destruct (map2_ok (patch (mul patchthresh (mad glmderivratio)))
              glmderivratio medfilt) as [filtered Hf]; [congruence|].
  destruct (map2_length _ _ _ _ Hf) as [Hfl _].
  destruct (map2_ok add lagtimes (delayoffsets g filtered))
    as [corrected Hc].
  { unfold delayoffsets. rewrite length_map. congruence. }
  exists filtered, corrected. split; [|split].
  - unfold filterderivratios. rewrite Hmap; simpl.
    rewrite Hmed; simpl. rewrite Hf; simpl. reflexivity.
  - exact Hc.
  - intros i ratio med lag Hr Hm Hl patched.
    assert (Hp : nth_error filtered i = Some patched)
      by (eapply (map2_nth _ _ _ _ Hf); eassumption).
    split; [exact Hp|].
    eapply (map2_nth _ _ _ _ Hc); [eassumption|].
    unfold delayoffsets. rewrite nth_error_map, Hp. reflexivity.
Qed.

End PatchingFacts.

Lemma patched_ratios_and_corrected_lags_witness :
  exists filtered corrected,
    filterderivratios Samples.unit_mad Samples.dense_populatemap
      Samples.zero_median_filter
      [of_Z 5; half] [0%nat; 1%nat] two false false
      = Ok ([zero; zero], filtered) /\
    lagtimescorrected Samples.unit_range_globals [one; one] filtered
      = Ok corrected /\
    forall i ratio med lag,
      nth_error [of_Z 5; half] i = Some ratio ->
      nth_error [zero; zero] i = Some med ->
      nth_error [one; one] i = Some lag ->
      let patched :=
        if gtb (abs (sub ratio med))
             (mul two (Samples.unit_mad [of_Z 5; half]))
        then med else ratio in
      nth_error filtered i = Some patched /\
      nth_error corrected i
        = Some (add lag (ratiotodelay Samples.unit_range_globals patched)).
Proof.
  apply (patched_ratios_and_corrected_lags
           Samples.unit_mad Samples.dense_populatemap
           Samples.zero_median_filter Samples.unit_range_globals
           [of_Z 5; half] [one; one] [0%nat; 1%nat] two
           [of_Z 5; half] [zero; zero]);
    reflexivity.
Defined.

Example filterderivratios_patches_outlier :
  filterderivratios Samples.unit_mad Samples.dense_populatemap
    Samples.zero_median_filter [of_Z 5; half] [0%nat; 1%nat] two false false
  = Ok ([zero; zero], [zero; half]).
Proof. vm_compute. reflexivity. Qed.

(** *** Training: where the limits of the ratio range come from *)

Lemma last_nth_error {A : Type} (d : A) :
  forall l : list A, l <> [] ->
    nth_error l (length l - 1) = Some (last l d).
Proof.
  induction l as [|a l IH]; intros Hne; [congruence|].
  destruct l as [|b l]; [reflexivity|].
  change (last (a :: b :: l) d) with (last (b :: l) d).
  rewrite <- IH by discriminate. simpl. rewrite Nat.sub_0_r. reflexivity.
Qed.

Lemma last_In {A : Type} (d : A) :
  forall l : list A, l <> [] -> In (last l d) l.
Proof.
  induction l as [|a l IH]; intros Hne; [congruence|].
  destruct l as [|b l]; [left; reflexivity|].
  right. apply IH. discriminate.
Qed.

(** Of the grid the spline is built on, [maplimits[0]] is the ratio at
    the last point and [maplimits[1]] the ratio at the first. *)
Lemma globals_limits
    (CubicSpline : list float -> list float -> result (float -> float))
    (smooth lagtimes : list float) (g : globals) :
  trainratiotooffset_globals CubicSpline smooth lagtimes = Ok g ->
  smooth <> [] /\
  CubicSpline (rev smooth) (rev lagtimes) = Ok (ratiotooffsetfunc g) /\
  nth_error smooth (length smooth - 1) = Some (fst (maplimits g)) /\
  nth_error smooth 0 = Some (snd (maplimits g)).
Proof.
  unfold trainratiotooffset_globals. intros H.
  destruct (CubicSpline (rev smooth) (rev lagtimes)) as [f|e];
    simpl in H; [|discriminate].
  destruct (rev smooth) as [|x0 xs] eqn:E; [discriminate|].
  inversion H; subst g; cbn [fst snd maplimits ratiotooffsetfunc]. clear H.
  assert (Hlen : length smooth = S (length xs))
    by (rewrite <- length_rev, E; reflexivity).
  assert (Hne : smooth <> []) by (intros ->; discriminate).
  split; [exact Hne|]. split; [reflexivity|]. split.
  - pose proof (nth_error_rev 0 smooth) as Hr. rewrite E in Hr.
    simpl in Hr. rewrite Hlen in Hr |- *. simpl in Hr |- *.
    rewrite Nat.sub_0_r in *. symmetry. exact Hr.
  - pose proof (nth_error_rev (length xs) smooth) as Hr.
    rewrite E, Hlen in Hr.
    replace (length xs <? S (length xs))%nat with true in Hr
      by (symmetry; apply Nat.ltb_lt; lia).
    rewrite Nat.sub_diag in Hr. rewrite <- Hr.
    pose proof (last_nth_error x0 (x0 :: xs)) as Hl.
    simpl length in Hl. rewrite Nat.sub_succ, Nat.sub_0_r in Hl.
    rewrite Hl by discriminate. reflexivity.
Qed.

Lemma trimedges_length {A : Type} (edgepad : nat) (a : list A) :
  length (trimedges edgepad a) =
    match edgepad with
    | O => 0%nat
    | S _ => (length a - edgepad - edgepad)%nat
    end.
Proof.
  destruct edgepad as [|e]; [reflexivity|].
  unfold trimedges. rewrite length_firstn, length_skipn. lia.
Qed.

Lemma trimedges_nth {A : Type} (edgepad : nat) (a : list A) (i : nat) :
  (0 < edgepad)%nat -> (i < length a - edgepad - edgepad)%nat ->
  nth_error (trimedges edgepad a) i = nth_error a (edgepad + i).
Proof.
  intros He Hi. destruct edgepad as [|e]; [lia|].
  unfold trimedges. rewrite nth_error_firstn, nth_error_skipn.
  replace (i <? length a - S e - S e)%nat with true
    by (symmetry; apply Nat.ltb_lt; exact Hi).
  reflexivity.
Qed.

(** X1: when the training of the calibration succeeds, [edgepad] is at
    least one and the grid holds more than [2 * edgepad] points, the
    spline was built on the reversed trimmed grids, and the limits of
    the ratio range are the smoothed ratios [edgepad] points from the
    end and [edgepad] points from the start of the untrimmed grid.  In
    particular [edgepad = 0], for which the slice [a[0:-0]] is empty,
    never trains. *)
Theorem trained_limits_come_from_trimmed_grid
    (CubicSpline : list float -> list float -> result (float -> float))
    (edgepad : nat) (smooth lagtimes : list float) (g : globals) :
  trainratiotooffset_tail CubicSpline edgepad smooth lagtimes = Ok g ->
  (0 < edgepad)%nat /\
  (2 * edgepad < length smooth)%nat /\
  CubicSpline (rev (trimedges edgepad smooth))
              (rev (trimedges edgepad lagtimes))
    = Ok (ratiotooffsetfunc g) /\
  nth_error smooth (length smooth - 1 - edgepad)
    = Some (fst (maplimits g)) /\
  nth_error smooth edgepad = Some (snd (maplimits g)).
Proof.
  unfold trainratiotooffset_tail. intros H.
  destruct (globals_limits _ _ _ _ H) as (Hne & Hcs & Hlo & Hhi).
  assert (Hlen : (0 < length (trimedges edgepad smooth))%nat)
    by (destruct (trimedges edgepad smooth); [congruence|simpl; lia]).
  rewrite trimedges_length in Hlen, Hlo.
  destruct edgepad as [|e]; [lia|].
  split; [lia|]. split; [lia|]. split; [exact Hcs|]. split.
  - rewrite trimedges_nth in Hlo by lia. rewrite <- Hlo. f_equal. lia.
  - rewrite trimedges_nth in Hhi by lia. rewrite <- Hhi. f_equal. lia.
Qed.

Lemma trained_limits_come_from_trimmed_grid_witness :
  (0 < 1)%nat /\
  (2 * 1 < length [of_Z 9; two; one; zero; of_Z (-9)])%nat /\
  nth_error [of_Z 9; two; one; zero; of_Z (-9)] 3 = Some zero /\
  nth_error [of_Z 9; two; one; zero; of_Z (-9)] 1 = Some two.
Proof.
  destruct (trained_limits_come_from_trimmed_grid
              (fun _ _ => Ok (fun x => x)) 1
              [of_Z 9; two; one; zero; of_Z (-9)]
              [zero; zero; zero; zero; zero]
              {| ratiotooffsetfunc := fun x => x; maplimits := (zero, two) |}
              eq_refl)
    as (H1 & H2 & _ & H3 & H4).
  repeat split; assumption.
Defined.

(** X2: when the reversed grid of smoothed ratios is strictly
    increasing, as the spline requires, and holds at least two points,
    the trained limits satisfy [maplimits[0] < maplimits[1]]. *)
Theorem trained_limits_are_ordered
    (CubicSpline : list float -> list float -> result (float -> float))
    (smooth lagtimes : list float) (g : globals) :
  trainratiotooffset_globals CubicSpline smooth lagtimes = Ok g ->
  Sorted (fun a b => ltb a b = true) (rev smooth) ->
  (2 <= length smooth)%nat ->
  ltb (fst (maplimits g)) (snd (maplimits g)) = true.
Proof.
  unfold trainratiotooffset_globals. intros H Hs Hlen.
  destruct (CubicSpline (rev smooth) (rev lagtimes)) as [f|e];
    simpl in H; [|discriminate].
  rewrite <- length_rev in Hlen.
  destruct (rev smooth) as [|x0 [|x1 xs]]; simpl in Hlen; try lia.
  inversion H; subst g; simpl. clear H.
  apply Sorted_StronglySorted in Hs;
    [|intros a b c; apply ltb_trans].
  apply StronglySorted_inv in Hs. destruct Hs as [_ Hall].
  rewrite Forall_forall in Hall. apply Hall.
  apply (last_In x0 (x1 :: xs)). discriminate.
Qed.

Lemma trained_limits_are_ordered_witness :
  ltb (fst (zero, two)) (snd (zero, two)) = true.
Proof.
  apply (trained_limits_are_ordered
           (fun _ _ => Ok (fun x => x)) [two; one; zero] [zero; one; two]
           {| ratiotooffsetfunc := fun x => x; maplimits := (zero, two) |}
           eq_refl).
  - repeat constructor.
  - simpl. lia.
Defined.

(** *** From the GLM coefficients to the delay offsets *)

Lemma ratiotodelay_clampedratio (g : globals) (r : float) :
  ratiotodelay g r = ratiotooffsetfunc g (clampedratio g r).
Proof.
  unfold ratiotodelay, clampedratio.
  destruct (ltb r (fst (maplimits g))); [reflexivity|].
  destruct (gtb r (snd (maplimits g))); reflexivity.
Qed.




Section PipelineFacts.
Variable glminputs : Type.
Variable glmfrommaps : glminputs -> list (float * float).
Variable mad : list float -> float.
Variable populatemap : list float -> list nat -> result (list float).
Variable median_filter : list float -> list float.


End PipelineFacts.


(** X4: clamping a ratio twice is clamping it once: the delay of a
    clamped ratio is the delay of the ratio, so feeding a delay map's
    ratios back through the range changes nothing. *)
Theorem clamping_is_idempotent (g : globals) (r : float)
    (Hrange : leb (fst (maplimits g)) (snd (maplimits g)) = true) :
  clampedratio g (clampedratio g r) = clampedratio g r /\
  ratiotodelay g (clampedratio g r) = ratiotodelay g r.
Proof.
  assert (H : clampedratio g (clampedratio g r) = clampedratio g r).
  { unfold clampedratio at 2.
    destruct (ltb r (fst (maplimits g))) eqn:E1.
    - unfold clampedratio. rewrite E1, ltb_irrefl.
      rewrite (leb_not_gtb _ _ Hrange). reflexivity.
    - destruct (gtb r (snd (maplimits g))) eqn:E2.
      + unfold clampedratio.
        assert (Hn : ltb (snd (maplimits g)) (fst (maplimits g)) = false)
          by (apply (leb_not_gtb _ _ Hrange)).
        rewrite E1, E2, Hn. unfold gtb. rewrite ltb_irrefl. reflexivity.
      + unfold clampedratio. rewrite E1, E2. reflexivity. }
  split; [exact H|].
  rewrite !ratiotodelay_clampedratio, H. reflexivity.
Qed.

Lemma clamping_is_idempotent_witness :
  clampedratio Samples.unit_range_globals
    (clampedratio Samples.unit_range_globals (of_Z 5))
  = clampedratio Samples.unit_range_globals (of_Z 5) /\
  ratiotodelay Samples.unit_range_globals
    (clampedratio Samples.unit_range_globals (of_Z 5))
  = ratiotodelay Samples.unit_range_globals (of_Z 5).
Proof.
  apply (clamping_is_idempotent Samples.unit_range_globals (of_Z 5)).
  reflexivity.
Defined.

End RefineDelayFacts.

(** ** The run and its pass loop *)

Module WorkflowFacts.
Import F64 F64Facts NpFacts Workflow.

(** *** The convergence metric at equality *)

Lemma map2_sub_diag (x : list float) :
  forallb is_finite x = true ->
  Np.map2 sub x x = Ok (map (fun _ => zero) x).
Proof.
  induction x as [|a x IH]; simpl; intros H; [reflexivity|].
  apply andb_prop in H. destruct H as [Ha Hx].
  rewrite (IH Hx). simpl. rewrite (sub_diag_finite a Ha). reflexivity.
Qed.

Lemma np_sum_zeros (n : nat) : np_sum (repeat zero n) = zero.
Proof.
  unfold np_sum. induction n as [|n IH]; simpl; [reflexivity|exact IH].
Qed.

Lemma map_const_repeat {A B : Type} (b : B) (l : list A) :
  map (fun _ => b) l = repeat b (length l).
Proof. induction l as [|a l IH]; simpl; congruence. Qed.

Lemma mse_diag (x : list float) :
  x <> [] -> forallb is_finite x = true -> mse x x = Ok zero.
Proof.
  intros Hne Hfin. unfold mse. rewrite (map2_sub_diag x Hfin). simpl.
  rewrite map_map. change (mul zero zero) with zero.
  rewrite (map_const_repeat zero x).
  unfold np_mean. rewrite np_sum_zeros, repeat_length.
  destruct x as [|a x]; [congruence|].
  simpl length. rewrite Nat2Z.inj_succ.
  destruct (Z.succ (Z.of_nat (length x))) as [|p|p] eqn:E; try lia.
  rewrite div_zero_of_Z_positive. reflexivity.
Qed.

(** The metric of two vectors of the same length is the sum, taken in
    order from [0.0], of the squared differences, divided by their
    number; vectors of different lengths have no metric. *)
Lemma mse_value (vec1 vec2 : list float) :
  (length vec1 = length vec2 ->
   exists d,
     Np.map2 sub vec2 vec1 = Ok d /\
     length d = length vec1 /\
     (forall i a b, nth_error vec1 i = Some a -> nth_error vec2 i = Some b ->
        nth_error d i = Some (sub b a)) /\
     mse vec1 vec2 =
       Ok (div (fold_left add (map (fun x => mul x x) d) zero)
               (of_Z (Z.of_nat (length vec1))))) /\
  (length vec1 <> length vec2 -> exists e, mse vec1 vec2 = Raise e).
Proof.
  split.
  - intros Hlen.
    destruct (map2_ok sub vec2 vec1) as [d Hd]; [congruence|].
    destruct (map2_length _ _ _ _ Hd) as [_ Hl].
    exists d. split; [exact Hd|]. split; [exact Hl|]. split.
    + intros i a b Ha Hb. apply (map2_nth _ _ _ _ Hd i b a Hb Ha).
    + unfold mse. rewrite Hd. simpl. unfold np_mean, np_sum.
      rewrite length_map, Hl. reflexivity.
  - intros Hlen. unfold mse.
    destruct (Np.map2 sub vec2 vec1) as [d|e] eqn:Hd.
    + destruct (map2_length _ _ _ _ Hd) as [H1 H2]. congruence.
    + exists e. reflexivity.
Qed.

(** *** The log of a pass *)

Lemma onepass_unfold (o : options) (w : world) (win : Z * Z) (thepass : Z)
    (st : loopstate w) :
  onepass o w win thepass st =
    if refinement_due o thepass then
      (passprefix o w win thepass (theregressor st)
         ++ fst (refinestep o w thepass (fitpass w thepass (theregressor st))
                   (enterpass thepass st)),
       snd (refinestep o w thepass (fitpass w thepass (theregressor st))
              (enterpass thepass st)))
    else (passprefix o w win thepass (theregressor st),
          Ok (enterpass thepass st)).
Proof.
  unfold onepass, passprefix, emitall.
  destruct (refinement_due o thepass);
    [destruct (refinestep o w thepass _ (enterpass thepass st)) as [l r]|];
    destruct (check_autocorrelation o);
    destruct (0 <? numestreps o);
    destruct (String.eqb (similaritymetric o) "mutualinfo");
    cbn [wbind emit wret app fst snd];
    rewrite <- ?app_assoc; cbn [app]; rewrite ?app_nil_r; reflexivity.
Qed.

Lemma passloop_stopped (o : options) (w : world) (win : Z * Z)
    (remaining : nat) (thepass : Z) (st : loopstate w) :
  stoprefining st = true -> passloop o w win remaining thepass st = ([], Ok st).
Proof. intros H. destruct remaining; simpl; [|rewrite H]; reflexivity. Qed.

Lemma passloop_step (o : options) (w : world) (win : Z * Z)
    (remaining : nat) (thepass : Z) (st : loopstate w) :
  stoprefining st = false ->
  passloop o w win (S remaining) thepass st =
    match onepass o w win thepass st with
    | (log, Ok st') =>
        (log ++ fst (passloop o w win remaining (thepass + 1) st'),
         snd (passloop o w win remaining (thepass + 1) st'))
    | (log, Raise e) => (log, Raise e)
    end.
Proof.
  intros H. simpl. rewrite H. unfold wbind.
  destruct (onepass o w win thepass st) as [log [st'|e]]; [|reflexivity].
  destruct (passloop o w win remaining (thepass + 1) st'); reflexivity.
Qed.

(** *** The three ways a refinement step ends *)

Lemma refinestep_nomask (o : options) (w : world) (thepass : Z)
    (fit : fitresult w) (st : loopstate w) :
  numinmask w thepass fit = 0 ->
  refinestep o w thepass fit st = ([Critical nomask_msg], Raise SystemExit).
Proof. intros H. unfold refinestep. rewrite H. reflexivity. Qed.

Lemma refinestep_empty (o : options) (w : world) (thepass : Z)
    (fit : fitresult w) (st : loopstate w) :
  numinmask w thepass fit <> 0 ->
  fst (dorefine w thepass fit) <= 0 ->
  refinestep o w thepass fit st =
    ([Warning refinefailed_msg],
     Ok {| stoprefining := true;
           refinestopreason := emptymask;
           previousnormoutputdata := previousnormoutputdata st;
           theregressor := theregressor st;
           passesstarted := passesstarted st |}).
Proof.
  intros Hn Hv. unfold refinestep.
  destruct (numinmask w thepass fit =? 0) eqn:E;
    [apply Z.eqb_eq in E; contradiction|].
  destruct (dorefine w thepass fit) as [vp new]; simpl in Hv.
  destruct (0 <? vp) eqn:E2; [apply Z.ltb_lt in E2; lia|].
  reflexivity.
Qed.

Lemma refinestep_refined (o : options) (w : world) (thepass : Z)
    (fit : fitresult w) (st : loopstate w) (regressormse : float) :
  numinmask w thepass fit <> 0 ->
  0 < fst (dorefine w thepass fit) ->
  mse (snd (dorefine w thepass fit)) (previousnormoutputdata st)
    = Ok regressormse ->
  refinestep o w thepass fit st =
    ([RegressorMSE thepass regressormse],
     Ok {| stoprefining :=
             fst (check_convergence o thepass regressormse
                    (refinestopreason st));
           refinestopreason :=
             snd (check_convergence o thepass regressormse
                    (refinestopreason st));
           previousnormoutputdata :=
             map (fun x => add x zero) (snd (dorefine w thepass fit));
           theregressor := nextregressor w (theregressor st) fit;
           passesstarted := passesstarted st |}).
Proof.
  intros Hn Hv Hm. unfold refinestep.
  destruct (numinmask w thepass fit =? 0) eqn:E;
    [apply Z.eqb_eq in E; contradiction|].
  destruct (dorefine w thepass fit) as [vp new]; simpl in Hv, Hm |- *.
  destruct (0 <? vp) eqn:E2; [|apply Z.ltb_ge in E2; lia].
  rewrite Hm. simpl.
  destruct (check_convergence o thepass regressormse (refinestopreason st));
    reflexivity.
Qed.

Lemma refinestep_mse_raises (o : options) (w : world) (thepass : Z)
    (fit : fitresult w) (st : loopstate w) (e : exn) :
  numinmask w thepass fit <> 0 ->
  0 < fst (dorefine w thepass fit) ->
  mse (snd (dorefine w thepass fit)) (previousnormoutputdata st) = Raise e ->
  refinestep o w thepass fit st = ([], Raise e).
Proof.
  intros Hn Hv Hm. unfold refinestep.
  destruct (numinmask w thepass fit =? 0) eqn:E;
    [apply Z.eqb_eq in E; contradiction|].
  destruct (dorefine w thepass fit) as [vp new]; simpl in Hv, Hm |- *.
  destruct (0 <? vp) eqn:E2; [|apply Z.ltb_ge in E2; lia].
  rewrite Hm. reflexivity.
Qed.

(** The outcomes of the refinement step, one by one. *)
Lemma refinestep_cases (o : options) (w : world) (thepass : Z)
    (fit : fitresult w) (st : loopstate w) :
  refinestep o w thepass fit st = ([Critical nomask_msg], Raise SystemExit)
  \/ (exists e, refinestep o w thepass fit st = ([], Raise e))
  \/ refinestep o w thepass fit st =
       ([Warning refinefailed_msg],
        Ok {| stoprefining := true;
              refinestopreason := emptymask;
              previousnormoutputdata := previousnormoutputdata st;
              theregressor := theregressor st;
              passesstarted := passesstarted st |})
  \/ (exists m,
        refinestep o w thepass fit st =
          ([RegressorMSE thepass m],
           Ok {| stoprefining :=
                   fst (check_convergence o thepass m (refinestopreason st));
                 refinestopreason :=
                   snd (check_convergence o thepass m (refinestopreason st));
                 previousnormoutputdata :=
                   map (fun x => add x zero) (snd (dorefine w thepass fit));
                 theregressor := nextregressor w (theregressor st) fit;
                 passesstarted := passesstarted st |})).
Proof.
  destruct (Z.eq_dec (numinmask w thepass fit) 0) as [Hz|Hnz].
  - left. apply refinestep_nomask. exact Hz.
  - destruct (Z_lt_le_dec 0 (fst (dorefine w thepass fit))) as [Hv|Hv].
    + destruct (mse (snd (dorefine w thepass fit))
                    (previousnormoutputdata st)) as [m|e] eqn:Em.
      * right. right. right. exists m.
        apply refinestep_refined; assumption.
      * right. left. exists e. apply refinestep_mse_raises; assumption.
    + right. right. left. apply refinestep_empty; assumption.
Qed.

(** *** What a pass loop may log *)

Lemma window_pair (win : Z * Z) : (fst win, snd win) = win.
Proof. destruct win; reflexivity. Qed.

Lemma window_event_ok (o : options) (w : world) (win : Z * Z) (e : event) :
  touches_marker e = false ->
  window_of e = None \/ window_of e = Some win ->
  pass_event_ok o w win e.
Proof.
  intros Hm Hw. split; [exact Hm|].
  intros x Hx. left. destruct Hw as [Hw|Hw]; congruence.
Qed.

Ltac event_ok :=
  apply window_event_ok;
  [reflexivity
  |first [left; reflexivity
         |right; cbn [window_of]; rewrite window_pair; reflexivity]].

Ltac events_ok :=
  repeat first
    [ apply Forall_nil
    | apply Forall_cons; [event_ok|] ].

Lemma despecklefits_ok (o : options) (w : world) (win : Z * Z)
    (thepass : Z) (k : nat) :
  Forall (pass_event_ok o w win) (despecklefits thepass k).
Proof.
  unfold despecklefits. apply Forall_forall. intros e He.
  apply in_map_iff in He. destruct He as (d & <- & _). event_ok.
Qed.

Lemma passprefix_ok (o : options) (w : world) (win : Z * Z) (thepass : Z)
    (reg : regressor w) :
  Forall (pass_event_ok o w win) (passprefix o w win thepass reg).
Proof.
  unfold passprefix.
  apply Forall_app. split.
  { destruct (check_autocorrelation o) eqn:Eac; [|apply Forall_nil].
    apply Forall_cons; [|apply Forall_nil].
    split; [reflexivity|]. intros x Hx. right.
    split; [exact Eac|]. split; [reflexivity|].
    cbn [window_of] in Hx. rewrite window_pair in Hx. congruence. }
  apply Forall_app. split.
  { destruct (0 <? numestreps o); events_ok. }
  apply Forall_app. split; [events_ok|].
  apply Forall_app. split.
  { destruct (String.eqb (similaritymetric o) "mutualinfo"); events_ok. }
  apply Forall_app. split; [events_ok|].
  apply Forall_app. split; [apply despecklefits_ok|events_ok].
Qed.

Lemma refinestep_ok (o : options) (w : world) (win : Z * Z) (thepass : Z)
    (fit : fitresult w) (st : loopstate w) :
  Forall (pass_event_ok o w win) (fst (refinestep o w thepass fit st)).
Proof.
  destruct (refinestep_cases o w thepass fit st)
    as [E|[[e E]|[E|[m E]]]]; rewrite E; cbn [fst]; events_ok.
Qed.

Lemma onepass_ok (o : options) (w : world) (win : Z * Z) (thepass : Z)
    (st : loopstate w) :
  Forall (pass_event_ok o w win) (fst (onepass o w win thepass st)).
Proof.
  rewrite onepass_unfold. destruct (refinement_due o thepass); simpl.
  - apply Forall_app. split; [apply passprefix_ok|apply refinestep_ok].
  - apply passprefix_ok.
Qed.

Lemma passloop_ok (o : options) (w : world) (win : Z * Z) (remaining : nat) :
  forall thepass (st : loopstate w),
    Forall (pass_event_ok o w win)
           (fst (passloop o w win remaining thepass st)).
Proof.
  induction remaining as [|n IH]; intros thepass st; [apply Forall_nil|].
  destruct (stoprefining st) eqn:Es.
  - rewrite passloop_stopped by assumption. apply Forall_nil.
  - rewrite passloop_step by assumption.
    pose proof (onepass_ok o w win thepass st) as H1.
    destruct (onepass o w win thepass st) as [log [st'|e]]; simpl in *.
    + apply Forall_app. split; [exact H1|apply IH].
    + exact H1.
Qed.

(** *** The loop stays within its range *)

Lemma passes_in_app (l1 l2 : list event) :
  passes_in (l1 ++ l2) = (passes_in l1 + passes_in l2)%nat.
Proof. unfold passes_in. rewrite filter_app, length_app. reflexivity. Qed.

Lemma passes_in_refinestep (o : options) (w : world) (thepass : Z)
    (fit : fitresult w) (st : loopstate w) :
  passes_in (fst (refinestep o w thepass fit st)) = 0%nat.
Proof.
  destruct (refinestep_cases o w thepass fit st)
    as [E|[[e E]|[E|[m E]]]]; rewrite E; reflexivity.
Qed.

Lemma passes_in_despecklefits (thepass : Z) (k : nat) :
  passes_in (despecklefits thepass k) = 0%nat.
Proof.
  unfold despecklefits, passes_in. generalize 1%nat.
  induction k as [|k IH]; intros n; simpl; [reflexivity|apply IH].
Qed.

Lemma passes_in_passprefix (o : options) (w : world) (win : Z * Z)
    (thepass : Z) (reg : regressor w) :
  passes_in (passprefix o w win thepass reg) = 1%nat.
Proof.
  unfold passprefix. rewrite !passes_in_app, passes_in_despecklefits.
  destruct (check_autocorrelation o), (0 <? numestreps o),
    (String.eqb (similaritymetric o) "mutualinfo"); reflexivity.
Qed.

Lemma passes_in_onepass (o : options) (w : world) (win : Z * Z) (thepass : Z)
    (st : loopstate w) :
  passes_in (fst (onepass o w win thepass st)) = 1%nat.
Proof.
  rewrite onepass_unfold. destruct (refinement_due o thepass); simpl.
  - rewrite passes_in_app, passes_in_refinestep, passes_in_passprefix.
    reflexivity.
  - apply passes_in_passprefix.
Qed.

Lemma passes_in_passloop (o : options) (w : world) (win : Z * Z)
    (remaining : nat) :
  forall thepass (st : loopstate w),
    (passes_in (fst (passloop o w win remaining thepass st)) <= remaining)%nat.
Proof.
  induction remaining as [|n IH]; intros thepass st;
    [exact (Nat.le_refl 0)|].
  destruct (stoprefining st) eqn:Es.
  - rewrite passloop_stopped by assumption. apply Nat.le_0_l.
  - rewrite passloop_step by assumption.
    pose proof (passes_in_onepass o w win thepass st) as H1.
    destruct (onepass o w win thepass st) as [log [st'|e]]; simpl in *.
    + rewrite passes_in_app, H1. specialize (IH (thepass + 1) st'). lia.
    + lia.
Qed.

(** *** The run around the loop *)

(** After the loop the run options are saved with the stage ["preglm"]
    twice and with ["done"] once; a failure in between ends the run. *)
Lemma afterloop_cases (w : world) (st : loopstate w) :
  afterloop w st =
    ([WriteOptions stage_preglm; WriteOptions stage_preglm;
      WriteOptions stage_done], Ok (Some st))
  \/ exists log e,
       afterloop w st = (log, Raise e) /\
       (log = [] \/ log = [WriteOptions stage_preglm]
        \/ log = [WriteOptions stage_preglm; WriteOptions stage_preglm]).
Proof.
  unfold afterloop.
  destruct (finishrefinement w (theregressor st)) as [[]|e1];
    [|right; exists [], e1; split; [reflexivity|auto]].
  destruct (glmfiltering w (theregressor st)) as [[]|e2];
    [|right; exists [WriteOptions stage_preglm], e2;
      split; [reflexivity|auto]].
  destruct (saveoutputs w (theregressor st)) as [[]|e3];
    [|right; exists [WriteOptions stage_preglm; WriteOptions stage_preglm], e3;
      split; [reflexivity|auto]].
  left. reflexivity.
Qed.

Lemma afterloop_ok (o : options) (w : world) (win : Z * Z)
    (st : loopstate w) :
  Forall (pass_event_ok o w win) (fst (afterloop w st)).
Proof.
  destruct (afterloop_cases w st) as [E|(log & e & E & [->|[->| ->]])];
    rewrite E; cbn [fst]; events_ok.
Qed.

Lemma mainbody_unfold (o : options) (w : world) :
  mainbody o w =
    match check_lag_bounds o (validstart w) (validend w) (fmritr w) with
    | Raise e => ([WriteOptions stage_init], Raise e)
    | Ok _ =>
    if fakerun o then
      match readinputs w with
      | Raise e => ([WriteOptions stage_init], Raise e)
      | Ok _ => ([WriteOptions stage_init], Ok None)
      end
    else
    match preprocess w with
    | Raise e => ([WriteOptions stage_init], Raise e)
    | Ok reg =>
    match lag_window o (corrtr o w) with
    | Raise e => ([WriteOptions stage_init], Raise e)
    | Ok win =>
    match passloop o w win (Z.to_nat (numpasses o)) 1 (initialstate w reg) with
    | (log, Raise e) => (setupevents o win ++ log, Raise e)
    | (log, Ok st) =>
        (setupevents o win ++ log ++ fst (afterloop w st),
         snd (afterloop w st))
    end end end end.
Proof.
  unfold mainbody, setupevents.
  destruct (check_lag_bounds o (validstart w) (validend w) (fmritr w))
    as [[]|e]; [|reflexivity].
  destruct (fakerun o).
  { destruct (readinputs w) as [[]|e]; reflexivity. }
  destruct (preprocess w) as [reg|e]; [|reflexivity].
  cbn [lift wbind emit app].
  destruct (lag_window o (corrtr o w)) as [win|e]; [|reflexivity].
  cbn [wbind app].
  destruct (passloop o w win _ 1 (initialstate w reg)) as [log [st|e]];
    destruct (echocancel o); cbn [wbind emit wret app];
    try reflexivity;
    destruct (afterloop w st) as [l r]; reflexivity.
Qed.

Lemma replay_no_marker (log : list event) :
  Forall (fun e => touches_marker e = false) log ->
  forall fs, replay fs log = fs.
Proof.
  unfold replay. induction 1 as [|e log He _ IH]; intros fs; simpl;
    [reflexivity|].
  rewrite <- (IH fs) at 2. f_equal.
  destruct e; try reflexivity; discriminate.
Qed.

Lemma pass_events_no_marker (o : options) (w : world) (win : Z * Z)
    (log : list event) :
  Forall (pass_event_ok o w win) log ->
  Forall (fun e => touches_marker e = false) log.
Proof. apply Forall_impl. intros e [H _]. exact H. Qed.

Lemma setupevents_ok (o : options) (w : world) (win : Z * Z) :
  Forall (pass_event_ok o w win) (setupevents o win).
Proof.
  unfold setupevents. destruct (echocancel o); cbn [app]; events_ok.
Qed.

(** The log of the body of a run that has computed its lag window. *)
Lemma mainbody_events_ok (o : options) (w : world) (win : Z * Z) :
  lag_window o (corrtr o w) = Ok win ->
  Forall (pass_event_ok o w win) (fst (mainbody o w)).
Proof.
  intros Hwin. rewrite mainbody_unfold, Hwin.
  assert (Hinit : Forall (pass_event_ok o w win) [WriteOptions stage_init])
    by events_ok.
  destruct (check_lag_bounds o (validstart w) (validend w) (fmritr w))
    as [[]|e]; [|exact Hinit].
  destruct (fakerun o).
  { destruct (readinputs w) as [[]|e]; exact Hinit. }
  destruct (preprocess w) as [reg|e]; [|exact Hinit].
  pose proof (passloop_ok o w win (Z.to_nat (numpasses o)) 1
                (initialstate w reg)) as Hloop.
  destruct (passloop o w win _ 1 (initialstate w reg)) as [log [st|e]];
    cbn [fst] in *.
  - apply Forall_app; split; [apply setupevents_ok|].
    apply Forall_app; split; [exact Hloop|apply afterloop_ok].
  - apply Forall_app; split; [apply setupevents_ok|exact Hloop].
Qed.

(** Whatever the outcome, the body of a run touches neither marker, and
    an event that carries lag limits is only logged after [lag_window]
    has returned. *)
Lemma mainbody_ok (o : options) (w : world) :
  Forall (fun e => touches_marker e = false) (fst (mainbody o w)) /\
  forall e x, In e (fst (mainbody o w)) -> window_of e = Some x ->
    exists win, lag_window o (corrtr o w) = Ok win.
Proof.
  destruct (lag_window o (corrtr o w)) as [win|err] eqn:Hwin.
  - pose proof (mainbody_events_ok o w win Hwin) as H.
    split; [eapply pass_events_no_marker; exact H|].
    intros e x _ _. exists win. reflexivity.
  - rewrite mainbody_unfold, Hwin.
    assert (Hinit : Forall (fun e => touches_marker e = false)
                           [WriteOptions stage_init])
      by (repeat constructor).
    assert (Hinit2 : forall e x, In e [WriteOptions stage_init] ->
                       window_of e = Some x ->
                       exists win : Z * Z, Raise err = Ok win)
      by (intros e x [<-|[]]; discriminate).
    destruct (check_lag_bounds o (validstart w) (validend w) (fmritr w))
      as [[]|e]; [|split; assumption].
    destruct (fakerun o).
    { destruct (readinputs w) as [[]|e]; split; assumption. }
    destruct (preprocess w) as [reg|e]; split; assumption.
Qed.

Lemma rapidtide_main_unfold (o : options) (w : world) (fs0 : files) :
  rapidtide_main o w fs0 =
    match mainbody o w with
    | (log, Raise e) => (Unlink DONE :: Touch ISRUNNING :: log, Raise e)
    | (log, Ok None) => (Unlink DONE :: Touch ISRUNNING :: log, Ok None)
    | (log, Ok (Some st)) =>
        (Unlink DONE :: Touch ISRUNNING :: log
           ++ [Unlink ISRUNNING; Touch DONE], Ok (Some st))
    end.
Proof.
  unfold rapidtide_main.
  pose proof (proj1 (mainbody_ok o w)) as Hm.
  destruct (mainbody o w) as [log [[st|]|e]]; simpl in *;
    [|rewrite app_nil_r; reflexivity|reflexivity].
  unfold unlink_isrunning.
  change (replay fs0 (Unlink DONE :: Touch ISRUNNING :: log))
    with (replay (apply_event (apply_event fs0 (Unlink DONE))
                              (Touch ISRUNNING)) log).
  rewrite (replay_no_marker log Hm). simpl. reflexivity.
Qed.

(** *** Convergence *)

(** A loop that has not been stopped and has a pass left in its range
    runs that pass. *)
Lemma passloop_runs_pass (o : options) (w : world) (win : Z * Z)
    (remaining : nat) (thepass : Z) (st : loopstate w) :
  stoprefining st = false ->
  exists rest r,
    passloop o w win (S remaining) thepass st =
      (passprefix o w win thepass (theregressor st) ++ rest, r).
Proof.
  intros Hs. rewrite passloop_step by exact Hs. rewrite onepass_unfold.
  destruct (refinement_due o thepass).
  - destruct (refinestep o w thepass _ (enterpass thepass st))
      as [l [st'|e]]; cbn [fst snd].
    + eexists. eexists. rewrite <- app_assoc. reflexivity.
    + eexists. eexists. reflexivity.
  - eexists. eexists. reflexivity.
Qed.

(** C1: the metric of two vectors is the mean of their squared
    differences, and [0.0] for a regressor against itself.  In a pass
    whose refinement step processes at least one voxel the metric logged
    is [mse] of the new normalised regressor and the one kept from the
    previous pass, the new regressor is kept for the next pass, and
    [stoprefining] is set exactly when the pass number has reached the
    budget ([maxpasses] with a convergence threshold, [passes] without)
    or, with a threshold, the metric is below it.  The loop runs the
    pass and goes on from its state: when [stoprefining] has been set
    it ends with that pass, and when it has not and the range holds
    another pass, the next pass starts.  A loop that is not stopped runs
    its pass, a stopped one does nothing more, and the loop never makes
    more passes than its range holds. *)
Theorem convergence_metric_and_stopping
    (o : options) (w : world) (win : Z * Z) (thepass : Z)
    (st : loopstate w) (remaining : nat) (x vec1 vec2 : list float) :
  (forall regressormse,
     stoprefining st = false ->
     refinement_due o thepass = true ->
     numinmask w thepass (fitpass w thepass (theregressor st)) <> 0 ->
     0 < fst (dorefine w thepass (fitpass w thepass (theregressor st))) ->
     mse (snd (dorefine w thepass (fitpass w thepass (theregressor st))))
         (previousnormoutputdata st) = Ok regressormse ->
     exists st',
       onepass o w win thepass st =
         (passprefix o w win thepass (theregressor st)
            ++ [RegressorMSE thepass regressormse],
          Ok st') /\
       previousnormoutputdata st' =
         map (fun v => add v zero)
           (snd (dorefine w thepass (fitpass w thepass (theregressor st)))) /\
       theregressor st' =
         nextregressor w (theregressor st)
           (fitpass w thepass (theregressor st)) /\
       stoprefining st' =
         match convergencethresh o with
         | Some thresh => (maxpasses o <=? thepass) || ltb regressormse thresh
         | None => passes o <=? thepass
         end /\
       passloop o w win (S remaining) thepass st =
         ((passprefix o w win thepass (theregressor st)
             ++ [RegressorMSE thepass regressormse])
            ++ fst (passloop o w win remaining (thepass + 1) st'),
          snd (passloop o w win remaining (thepass + 1) st')) /\
       (stoprefining st' = true ->
        passloop o w win (S remaining) thepass st =
          (passprefix o w win thepass (theregressor st)
             ++ [RegressorMSE thepass regressormse],
           Ok st')) /\
       (stoprefining st' = false ->
        exists rest r,
          passloop o w win (S (S remaining)) thepass st =
            ((passprefix o w win thepass (theregressor st)
                ++ [RegressorMSE thepass regressormse])
               ++ passprefix o w win (thepass + 1) (theregressor st')
               ++ rest,
             r))) /\
  (length vec1 = length vec2 ->
   exists d,
     Np.map2 sub vec2 vec1 = Ok d /\
     length d = length vec1 /\
     (forall i a b, nth_error vec1 i = Some a -> nth_error vec2 i = Some b ->
        nth_error d i = Some (sub b a)) /\
     mse vec1 vec2 =
       Ok (div (fold_left add (map (fun v => mul v v) d) zero)
               (of_Z (Z.of_nat (length vec1))))) /\
  (x <> [] -> forallb is_finite x = true -> mse x x = Ok zero) /\
  (stoprefining st = false ->
   exists rest r,
     passloop o w win (S remaining) thepass st =
       (passprefix o w win thepass (theregressor st) ++ rest, r)) /\
  (stoprefining st = true ->
   passloop o w win remaining thepass st = ([], Ok st)) /\
  (passes_in (fst (passloop o w win remaining thepass st)) <= remaining)%nat.
Proof.
  split; [|split; [|split; [|split; [|split]]]].
  - intros regressormse Hrun Hdue Hmask Hvox Hmse.
    assert (Hpass :
      onepass o w win thepass st =
        (passprefix o w win thepass (theregressor st)
           ++ [RegressorMSE thepass regressormse],
         Ok {| stoprefining :=
                 fst (check_convergence o thepass regressormse
                        (refinestopreason st));
               refinestopreason :=
                 snd (check_convergence o thepass regressormse
                        (refinestopreason st));
               previousnormoutputdata :=
                 map (fun v => add v zero)
                   (snd (dorefine w thepass
                           (fitpass w thepass (theregressor st))));
               theregressor :=
                 nextregressor w (theregressor st)
                   (fitpass w thepass (theregressor st));
               passesstarted := thepass |})).
    { rewrite onepass_unfold, Hdue.
      rewrite (refinestep_refined o w thepass _ (enterpass thepass st)
                 regressormse Hmask Hvox Hmse).
      reflexivity. }
    eexists. split; [exact Hpass|].
    split; [reflexivity|]. split; [reflexivity|].
    assert (Hloop : forall n,
      passloop o w win (S n) thepass st =
        ((passprefix o w win thepass (theregressor st)
            ++ [RegressorMSE thepass regressormse])
           ++ fst (passloop o w win n (thepass + 1) _),
         snd (passloop o w win n (thepass + 1) _)))
      by (intros n; rewrite passloop_step by exact Hrun;
          rewrite Hpass; reflexivity).
    split.
    { cbn [stoprefining]. unfold check_convergence.
      destruct (convergencethresh o) as [thresh|].
      - destruct (maxpasses o <=? thepass); [reflexivity|].
        destruct (ltb regressormse thresh); reflexivity.
      - destruct (passes o <=? thepass); reflexivity. }
    split; [apply Hloop|]. split.
    + intros Hstop. rewrite Hloop.
      rewrite passloop_stopped by exact Hstop.
      cbn [fst snd]. rewrite app_nil_r. reflexivity.
    + intros Hgo. rewrite Hloop.
      destruct (passloop_runs_pass o w win remaining (thepass + 1) _ Hgo)
        as (rest & r & E).
      rewrite E. cbn [fst snd theregressor]. eexists. eexists. reflexivity.
  - apply (proj1 (mse_value vec1 vec2)).
  - apply mse_diag.
  - apply passloop_runs_pass.
  - apply passloop_stopped.
  - apply passes_in_passloop.
Qed.

Lemma convergence_metric_and_stopping_witness :
  (exists st',
     passloop Samples.options30 (Samples.steady_world 5 5) (59, 60) 5 1
         (initialstate (Samples.steady_world 5 5) tt)
       = (passprefix Samples.options30 (Samples.steady_world 5 5) (59, 60) 1 tt
            ++ [RegressorMSE 1 zero],
          Ok st') /\
     previousnormoutputdata st' = [one; zero] /\
     stoprefining st' = true) /\
  (exists rest r,
     passloop Samples.options30 Samples.moving_world (59, 60) 5 1
         (initialstate Samples.moving_world tt)
       = ((passprefix Samples.options30 Samples.moving_world (59, 60) 1 tt
             ++ [RegressorMSE 1 half])
            ++ passprefix Samples.options30 Samples.moving_world (59, 60) 2 tt
            ++ rest,
          r)).
Proof.
  split.
  - destruct (convergence_metric_and_stopping
                Samples.options30 (Samples.steady_world 5 5) (59, 60) 1
                (initialstate (Samples.steady_world 5 5) tt) 4%nat
                [one; zero] [] [])
      as (Hpass & _).
    destruct (Hpass zero) as (st' & _ & H2 & _ & H4 & _ & H6 & _);
      [reflexivity | reflexivity | discriminate | reflexivity | reflexivity |].
    exists st'. split; [apply H6; rewrite H4; reflexivity|].
    split; [exact H2|rewrite H4; reflexivity].
  - destruct (convergence_metric_and_stopping
                Samples.options30 Samples.moving_world (59, 60) 1
                (initialstate Samples.moving_world tt) 3%nat
                [one; zero] [] [])
      as (Hpass & _).
    destruct (Hpass half) as (st' & _ & _ & H3 & H4 & _ & _ & H7);
      [reflexivity | reflexivity | discriminate | reflexivity
      | vm_compute; reflexivity |].
    destruct (H7 ltac:(rewrite H4; reflexivity)) as (rest & r & E).
    exists rest, r. exact E.
Defined.

Example mse_of_shifted_regressor :
  mse [one; zero] [zero; zero] = Ok half.
Proof. vm_compute. reflexivity. Qed.

(** *** Empty masks *)

(** C2: in a pass that refines, a refine mask with no voxel in it makes
    the pass log the critical message and leave through [sys.exit()], and
    the run ends there with the same exit and nothing logged after it;
    a refinement step that processes no voxel logs its warning, sets
    [stoprefining] and records ["emptymask"], and the loop ends with
    that state at the end of that pass. *)
Theorem empty_mask_stops_refinement
    (o : options) (w : world) (win : Z * Z) (thepass : Z)
    (st : loopstate w) (remaining : nat)
    (Hdue : refinement_due o thepass = true)
    (Hrun : stoprefining st = false) :
  (numinmask w thepass (fitpass w thepass (theregressor st)) = 0 ->
   passloop o w win (S remaining) thepass st =
     (passprefix o w win thepass (theregressor st) ++ [Critical nomask_msg],
      Raise SystemExit)) /\
  (numinmask w thepass (fitpass w thepass (theregressor st)) <> 0 ->
   fst (dorefine w thepass (fitpass w thepass (theregressor st))) <= 0 ->
   exists st',
     passloop o w win (S remaining) thepass st =
       (passprefix o w win thepass (theregressor st)
          ++ [Warning refinefailed_msg], Ok st') /\
     stoprefining st' = true /\
     refinestopreason st' = emptymask) /\
  (forall fs0 reg win0 log,
     check_lag_bounds o (validstart w) (validend w) (fmritr w) = Ok tt ->
     fakerun o = false ->
     preprocess w = Ok reg ->
     lag_window o (corrtr o w) = Ok win0 ->
     passloop o w win0 (Z.to_nat (numpasses o)) 1 (initialstate w reg)
       = (log, Raise SystemExit) ->
     rapidtide_main o w fs0 =
       (Unlink DONE :: Touch ISRUNNING :: setupevents o win0 ++ log,
        Raise SystemExit)).
Proof.
  split; [|split].
  - intros Hzero. rewrite passloop_step by assumption.
    rewrite onepass_unfold, Hdue.
    rewrite (refinestep_nomask o w thepass _ _ Hzero). reflexivity.
  - intros Hmask Hvox. rewrite passloop_step by assumption.
    rewrite onepass_unfold, Hdue.
    rewrite (refinestep_empty o w thepass _ _ Hmask Hvox).
    cbn [fst snd]. rewrite passloop_stopped by reflexivity.
    eexists. split; [rewrite app_nil_r; reflexivity|].
    split; reflexivity.
  - intros fs0 reg win0 log Hb Hf Hp Hw Hl.
    rewrite rapidtide_main_unfold, mainbody_unfold, Hb, Hf, Hp, Hw, Hl.
    reflexivity.
Qed.

Lemma empty_mask_stops_refinement_witness :
  passloop Samples.options30 (Samples.steady_world 0 0) (59, 60) 5 1
      (initialstate (Samples.steady_world 0 0) tt)
    = (passprefix Samples.options30 (Samples.steady_world 0 0) (59, 60) 1 tt
         ++ [Critical nomask_msg],
       Raise SystemExit) /\
  exists st',
    passloop Samples.options30 (Samples.steady_world 7 0) (59, 60) 5 1
        (initialstate (Samples.steady_world 7 0) tt)
      = (passprefix Samples.options30 (Samples.steady_world 7 0) (59, 60) 1 tt
           ++ [Warning refinefailed_msg], Ok st') /\
    stoprefining st' = true /\ refinestopreason st' = emptymask.
Proof.
  split.
  - apply (empty_mask_stops_refinement
             Samples.options30 (Samples.steady_world 0 0) (59, 60) 1
             (initialstate (Samples.steady_world 0 0) tt) 4
             eq_refl eq_refl).
    reflexivity.
  - apply (empty_mask_stops_refinement
             Samples.options30 (Samples.steady_world 7 0) (59, 60) 1
             (initialstate (Samples.steady_world 7 0) tt) 4
             eq_refl eq_refl).
    + discriminate.
    + discriminate.
Defined.

(** *** Configuration errors *)

(** C6: a [lagmin] or [lagmax] whose magnitude exceeds half the valid
    duration, and a lag window of fewer than three points, each end the
    run with a [ValueError] that says so, when nothing has been logged
    but the two markers and the first save of the run options: no
    similarity pass, no fit, no pass of the loop.  The checks of the
    magnitudes come before the return of a fake run; the check of the
    window is only reached by a run that is not fake. *)
Theorem configuration_errors_abort_before_passes
    (o : options) (w : world) (fs0 : files) :
  (gtb (abs (lagmin o)) (halfduration (validstart w) (validend w) (fmritr w))
     = true ->
   rapidtide_main o w fs0 =
     (startuplog,
      Raise (ValueError "magnitude of lagmin exceeds {} - invalid"%string
               (Some (halfduration (validstart w) (validend w) (fmritr w))))))
  /\
  (gtb (abs (lagmin o)) (halfduration (validstart w) (validend w) (fmritr w))
     = false ->
   gtb (abs (lagmax o)) (halfduration (validstart w) (validend w) (fmritr w))
     = true ->
   rapidtide_main o w fs0 =
     (startuplog,
      Raise (ValueError "magnitude of lagmax exceeds {} - invalid"%string
               (Some (halfduration (validstart w) (validend w) (fmritr w))))))
  /\
  (forall reg lagmininpts lagmaxinpts,
     check_lag_bounds o (validstart w) (validend w) (fmritr w) = Ok tt ->
     fakerun o = false ->
     preprocess w = Ok reg ->
     to_int (sub (div (opp (lagmin o)) (corrtr o w)) half)
       = Some lagmininpts ->
     to_int (add (div (lagmax o) (corrtr o w)) half) = Some lagmaxinpts ->
     lagmaxinpts + lagmininpts < 3 ->
     rapidtide_main o w fs0 =
       (startuplog, Raise (ValueError narrow_msg None)))
  /\
  Forall (fun e => is_similarity e = false) startuplog.
Proof.
  split; [|split; [|split]].
  - intros H. rewrite rapidtide_main_unfold, mainbody_unfold.
    unfold check_lag_bounds. rewrite H. reflexivity.
  - intros H1 H2. rewrite rapidtide_main_unfold, mainbody_unfold.
    unfold check_lag_bounds. rewrite H1, H2. reflexivity.
  - intros reg a b Hb Hf Hp Ha Hbb Hsum.
    rewrite rapidtide_main_unfold, mainbody_unfold, Hb, Hf, Hp.
    unfold lag_window, int. rewrite Ha, Hbb. simpl.
    apply Z.ltb_lt in Hsum. rewrite Hsum. reflexivity.
  - repeat constructor.
Qed.

Lemma configuration_errors_abort_before_passes_witness :
  rapidtide_main Samples.options_narrow (Samples.steady_world 5 5)
    Samples.fresh_files
  = (startuplog, Raise (ValueError narrow_msg None)).
Proof.
  apply (configuration_errors_abort_before_passes
           Samples.options_narrow (Samples.steady_world 5 5)
           Samples.fresh_files)
    with (reg := tt) (lagmininpts := 0) (lagmaxinpts := 1);
    reflexivity.
Defined.

Example lag_bound_beyond_half_duration :
  rapidtide_main Samples.options_wide (Samples.steady_world 5 5)
    Samples.fresh_files
  = (startuplog,
     Raise (ValueError "magnitude of lagmin exceeds {} - invalid"%string
              (Some (of_Z 50)))).
Proof. vm_compute. reflexivity. Qed.

(** *** The lag window *)

Lemma lag_window_at_least_three (o : options) (c : float) (win : Z * Z) :
  lag_window o c = Ok win -> 3 <= snd win + fst win.
Proof.
  unfold lag_window. intros Hlw.
  destruct (int _) as [a|]; simpl in Hlw; [|discriminate].
  destruct (int _) as [b|]; simpl in Hlw; [|discriminate].
  destruct (b + a <? 3) eqn:E; [discriminate|].
  inversion Hlw; subst. simpl. apply Z.ltb_ge in E. exact E.
Qed.

(** C8, as the code has it: the pair [(lagmininpts, lagmaxinpts)] is
    computed once by [lag_window] from [lagmin], [lagmax] and the
    oversampled step before the loop, and has at least three points; the
    retained index range is [corrorigin - lagmininpts] to
    [corrorigin + lagmaxinpts].  Every event of a run that carries lag
    limits carries that pair, with one exception: when
    [check_autocorrelation] is set, the Correlator is also given the
    limits of the autocorrelation check.  Every similarity pass and
    every call on the MutualInformationator gets the pair, and so does
    every call when [check_autocorrelation] is not set. *)
Theorem lag_window_fixed_for_the_run
    (o : options) (w : world) (fs0 : files) (e : event) (x : Z * Z) :
  In e (fst (rapidtide_main o w fs0)) ->
  window_of e = Some x ->
  exists win,
    lag_window o (corrtr o w) = Ok win /\
    3 <= snd win + fst win /\
    retained_window (corrorigin w) win
      = (corrorigin w - fst win, corrorigin w + snd win) /\
    (x = win \/
     check_autocorrelation o = true /\
     is_correlator_setlimits e = true /\
     x = acwindow (corrorigin w) win) /\
    (is_correlator_setlimits e = false -> x = win) /\
    (check_autocorrelation o = false -> x = win).
Proof.
  intros Hin Hwin.
  assert (Hbody : In e (fst (mainbody o w))).
  { rewrite rapidtide_main_unfold in Hin.
    destruct (mainbody o w) as [log [[st|]|err]]; simpl in Hin |- *.
    - destruct Hin as [<-|[<-|Hin]]; try discriminate.
      apply in_app_or in Hin. destruct Hin as [Hin|Hin]; [exact Hin|].
      destruct Hin as [<-|[<-|[]]]; discriminate.
    - destruct Hin as [<-|[<-|Hin]]; try discriminate. exact Hin.
    - destruct Hin as [<-|[<-|Hin]]; try discriminate. exact Hin. }
  destruct (proj2 (mainbody_ok o w) e x Hbody Hwin) as [win Hlw].
  pose proof (mainbody_events_ok o w win Hlw) as Hall.
  rewrite Forall_forall in Hall.
  destruct (Hall e Hbody) as [_ Hx]. specialize (Hx x Hwin).
  exists win. split; [exact Hlw|].
  split; [apply (lag_window_at_least_three o _ win Hlw)|].
  split; [reflexivity|]. split; [exact Hx|]. split.
  - intros Hc. destruct Hx as [Hx|(_ & Hc' & _)]; [exact Hx|congruence].
  - intros Hc. destruct Hx as [Hx|(Hc' & _)]; [exact Hx|congruence].
Qed.

Lemma lag_window_fixed_for_the_run_witness :
  exists win,
    lag_window Samples.options30_autocorr
      (corrtr Samples.options30_autocorr (Samples.steady_world 5 5))
      = Ok win /\
    3 <= snd win + fst win /\
    retained_window 100 win = (100 - fst win, 100 + snd win) /\
    ((59, 60) = win \/
     check_autocorrelation Samples.options30_autocorr = true /\
     is_correlator_setlimits (CalcSimilarityPass 1 59 60) = true /\
     (59, 60) = acwindow 100 win) /\
    (is_correlator_setlimits (CalcSimilarityPass 1 59 60) = false ->
     (59, 60) = win) /\
    (check_autocorrelation Samples.options30_autocorr = false ->
     (59, 60) = win).
Proof.
  apply (lag_window_fixed_for_the_run
           Samples.options30_autocorr (Samples.steady_world 5 5)
           Samples.fresh_files (CalcSimilarityPass 1 59 60) (59, 60)).
  - vm_compute. tauto.
  - reflexivity.
Defined.

(** C8, as stated, fails: with [lagmin = -30], [lagmax = 30] and a step
    of half a second the window keeps 59 points below the origin and 60
    above it; [lagmin = -10] with [lagmax = 30] is accepted as well and
    keeps 19 points below and 60 above; and in a run that checks the
    autocorrelation of its regressor the Correlator is given the limits
    39 and 40 in pass 1, not the lag window 59 and 60. *)
Lemma lag_window_not_symmetric :
  lag_window Samples.options30 half = Ok (59, 60) /\
  retained_window 100 (59, 60) = (41, 160) /\
  100 - 41 <> 160 - 100 /\
  check_lag_bounds Samples.options_10_30 0 99 one = Ok tt /\
  lag_window Samples.options_10_30 half = Ok (19, 60) /\
  lag_window Samples.options30_autocorr
    (corrtr Samples.options30_autocorr (Samples.steady_world 5 5))
    = Ok (59, 60) /\
  In (SetLimits theCorrelator 39 40)
     (fst (rapidtide_main Samples.options30_autocorr
             (Samples.steady_world 5 5) Samples.fresh_files)) /\
  (39, 40) <> (59, 60).
Proof.
  repeat split; try (vm_compute; reflexivity); try discriminate.
  vm_compute. tauto.
Qed.

(** *** The marker files *)

Lemma replay_app (fs : files) (l1 l2 : list event) :
  replay fs (l1 ++ l2) = replay (replay fs l1) l2.
Proof. unfold replay. apply fold_left_app. Qed.

Lemma replay_keeps_done_absent (log : list event) :
  Forall (fun e => e <> Touch DONE) log ->
  forall fs, done_exists fs = false -> done_exists (replay fs log) = false.
Proof.
  unfold replay. induction 1 as [|e log He _ IH]; intros fs Hfs; simpl;
    [exact Hfs|].
  apply IH. destruct e as [[]|[]| | | | | | | | |]; simpl; congruence.
Qed.

Lemma Forall_firstn {A : Type} (P : A -> Prop) (l : list A) :
  Forall P l -> forall k, Forall P (firstn k l).
Proof.
  induction 1 as [|a l Ha _ IH]; intros [|k]; simpl; constructor; auto.
Qed.

Lemma no_marker_no_done_touch (log : list event) :
  Forall (fun e => touches_marker e = false) log ->
  Forall (fun e => e <> Touch DONE) log.
Proof.
  apply Forall_impl. intros e He Heq. subst e. discriminate.
Qed.

(** A run whose [DONE] marker is never created: every prefix of its log
    leaves [DONE] absent, and the whole log leaves [ISRUNNING] in
    place. *)
Lemma unfinished_run_markers (fs0 : files) (log : list event) :
  Forall (fun e => touches_marker e = false) log ->
  (forall k, (0 < k)%nat ->
     done_exists (replay fs0 (firstn k (Unlink DONE :: Touch ISRUNNING :: log)))
       = false) /\
  replay fs0 (Unlink DONE :: Touch ISRUNNING :: log)
    = {| isrunning_exists := true; done_exists := false |}.
Proof.
  intros Hbody. split.
  - intros k Hk. destruct k as [|k]; [lia|]. cbn [firstn].
    change (replay fs0 (Unlink DONE
              :: firstn k (Touch ISRUNNING :: log)))
      with (replay (apply_event fs0 (Unlink DONE))
              (firstn k (Touch ISRUNNING :: log))).
    apply replay_keeps_done_absent; [|reflexivity].
    apply Forall_firstn. constructor; [discriminate|].
    apply no_marker_no_done_touch; exact Hbody.
  - change (Unlink DONE :: Touch ISRUNNING :: log)
      with ([Unlink DONE; Touch ISRUNNING] ++ log).
    rewrite replay_app, (replay_no_marker log Hbody). reflexivity.
Qed.

(** C9, as the code has it: a run starts by removing [DONE] and creating
    [ISRUNNING]; a run that reaches the end of the function ends by
    removing [ISRUNNING] and creating [DONE], in that order; a run that
    raises or exits, and a fake run, which returns after reading its
    inputs, leave [ISRUNNING] in place and [DONE] absent; after the
    first step of a run [DONE] does not exist at any point before the
    very last step of a run that reaches the end of the function. *)
Theorem done_marker_only_after_success
    (o : options) (w : world) (fs0 : files) :
  (exists rest,
     fst (rapidtide_main o w fs0) = Unlink DONE :: Touch ISRUNNING :: rest) /\
  (forall k,
     (0 < k <= length (fst (rapidtide_main o w fs0)))%nat ->
     (k = length (fst (rapidtide_main o w fs0)) ->
      forall st, snd (rapidtide_main o w fs0) <> Ok (Some st)) ->
     done_exists (replay fs0 (firstn k (fst (rapidtide_main o w fs0))))
       = false) /\
  (forall st, snd (rapidtide_main o w fs0) = Ok (Some st) ->
     fakerun o = false /\
     (exists body,
        fst (rapidtide_main o w fs0) =
          Unlink DONE :: Touch ISRUNNING :: body
            ++ [Unlink ISRUNNING; Touch DONE]) /\
     replay fs0 (fst (rapidtide_main o w fs0)) =
       {| isrunning_exists := false; done_exists := true |}) /\
  (snd (rapidtide_main o w fs0) = Ok None ->
     fakerun o = true /\
     fst (rapidtide_main o w fs0) = startuplog /\
     replay fs0 (fst (rapidtide_main o w fs0)) =
       {| isrunning_exists := true; done_exists := false |}) /\
  (forall e, snd (rapidtide_main o w fs0) = Raise e ->
     replay fs0 (fst (rapidtide_main o w fs0)) =
       {| isrunning_exists := true; done_exists := false |}) /\
  (fakerun o = true ->
   check_lag_bounds o (validstart w) (validend w) (fmritr w) = Ok tt ->
   readinputs w = Ok tt ->
   rapidtide_main o w fs0 = (startuplog, Ok None)).
Proof.
  assert (Hfake : forall log r,
            mainbody o w = (log, Ok r) ->
            match r with
            | Some _ => fakerun o = false
            | None => fakerun o = true /\ log = [WriteOptions stage_init]
            end).
  { intros log r. rewrite mainbody_unfold.
    destruct (check_lag_bounds o _ _ _) as [[]|e]; [|discriminate].
    destruct (fakerun o).
    - destruct (readinputs w) as [[]|e]; [|discriminate].
      intros H. inversion H; subst. split; reflexivity.
    - destruct (preprocess w) as [reg|e]; [|discriminate].
      destruct (lag_window o (corrtr o w)) as [win|e]; [|discriminate].
      destruct (passloop o w win _ 1 (initialstate w reg))
        as [l [st|e]]; [|discriminate].
      destruct (afterloop_cases w st) as [E|(l' & e & E & _)];
        rewrite E; cbn [fst snd]; intros H; inversion H; subst.
      reflexivity. }
  assert (Hlast : fakerun o = true ->
            check_lag_bounds o (validstart w) (validend w) (fmritr w)
              = Ok tt ->
            readinputs w = Ok tt ->
            rapidtide_main o w fs0 = (startuplog, Ok None)).
  { intros Hf Hb Hr.
    rewrite rapidtide_main_unfold, mainbody_unfold, Hb, Hf, Hr.
    reflexivity. }
  rewrite rapidtide_main_unfold in *.
  pose proof (proj1 (mainbody_ok o w)) as Hbody.
  destruct (mainbody o w) as [log [[st|]|err]] eqn:Em; cbn [fst snd] in *.
  - split; [eexists; reflexivity|].
    split; [|split; [|split; [|split]]].
    + intros k [Hk0 Hk] Hnot.
      assert (Hlt : (k <> length (Unlink DONE :: Touch ISRUNNING :: log
                                   ++ [Unlink ISRUNNING; Touch DONE]))%nat)
        by (intros Heq; apply (Hnot Heq st); reflexivity).
      assert (Hshape :
                Unlink DONE :: Touch ISRUNNING :: log
                  ++ [Unlink ISRUNNING; Touch DONE]
                = (Unlink DONE :: Touch ISRUNNING :: log
                     ++ [Unlink ISRUNNING]) ++ [Touch DONE])
        by (simpl; rewrite <- app_assoc; reflexivity).
      rewrite Hshape in *.
      rewrite length_app in Hk, Hlt. simpl length in Hk, Hlt.
      rewrite firstn_app.
      replace (k - length (Unlink DONE :: Touch ISRUNNING
                             :: log ++ [Unlink ISRUNNING]))%nat
        with 0%nat by (simpl length; lia).
      rewrite firstn_O, app_nil_r.
      destruct k as [|k]; [lia|]. cbn [firstn].
      change (replay fs0 (Unlink DONE
                :: firstn k (Touch ISRUNNING :: log ++ [Unlink ISRUNNING])))
        with (replay (apply_event fs0 (Unlink DONE))
                (firstn k (Touch ISRUNNING :: log ++ [Unlink ISRUNNING]))).
      apply replay_keeps_done_absent; [|reflexivity].
      apply Forall_firstn. constructor; [discriminate|].
      apply Forall_app. split; [apply no_marker_no_done_touch; exact Hbody|].
      constructor; [discriminate|constructor].
    + intros st0 _. split; [exact (Hfake log (Some st) eq_refl)|].
      split; [eexists; reflexivity|].
      change (Unlink DONE :: Touch ISRUNNING :: log
                ++ [Unlink ISRUNNING; Touch DONE])
        with ([Unlink DONE; Touch ISRUNNING]
                ++ log ++ [Unlink ISRUNNING; Touch DONE]).
      rewrite !replay_app, (replay_no_marker log Hbody). reflexivity.
    + intros H. discriminate.
    + intros e He. discriminate.
    + exact Hlast.
  - destruct (Hfake log None eq_refl) as [Hf Hlog].
    destruct (unfinished_run_markers fs0 log Hbody) as [Hk Hall].
    split; [eexists; reflexivity|].
    split; [|split; [|split; [|split]]].
    + intros k [Hk0 _] _. apply Hk. exact Hk0.
    + intros st0 H. discriminate.
    + intros _. split; [exact Hf|]. split; [rewrite Hlog; reflexivity|].
      exact Hall.
    + intros e H. discriminate.
    + exact Hlast.
  - destruct (unfinished_run_markers fs0 log Hbody) as [Hk Hall].
    split; [eexists; reflexivity|].
    split; [|split; [|split; [|split]]].
    + intros k [Hk0 _] _. apply Hk. exact Hk0.
    + intros st0 H. discriminate.
    + intros H. discriminate.
    + intros e _. exact Hall.
    + exact Hlast.
Qed.

Lemma done_marker_only_after_success_witness :
  rapidtide_main Samples.options30_fake (Samples.steady_world 5 5)
    Samples.fresh_files = (startuplog, Ok None) /\
  replay Samples.fresh_files
    (fst (rapidtide_main Samples.options30_fake (Samples.steady_world 5 5)
            Samples.fresh_files))
  = {| isrunning_exists := true; done_exists := false |}.
Proof.
  destruct (done_marker_only_after_success
              Samples.options30_fake (Samples.steady_world 5 5)
              Samples.fresh_files)
    as (_ & _ & _ & Hnone & _ & Hfake).
  split.
  - apply Hfake; reflexivity.
  - apply Hnone. rewrite Hfake; reflexivity.
Defined.

(** C9, as stated, fails for a fake run: it returns without an error
    after the first save of the run options, and leaves the [ISRUNNING]
    marker it created in place; no [DONE] marker is created. *)
Lemma fake_run_leaves_isrunning :
  fakerun Samples.options30_fake = true /\
  rapidtide_main Samples.options30_fake (Samples.steady_world 5 5)
    Samples.fresh_files
  = ([Unlink DONE; Touch ISRUNNING; WriteOptions stage_init], Ok None) /\
  replay Samples.fresh_files
    [Unlink DONE; Touch ISRUNNING; WriteOptions stage_init]
  = {| isrunning_exists := true; done_exists := false |}.
Proof. repeat split. Qed.

Example completed_run_log :
  fst (rapidtide_main Samples.options30 (Samples.steady_world_with 2 5 5)
         Samples.fresh_files)
  = [Unlink DONE; Touch ISRUNNING; WriteOptions stage_init;
     SetLimits theCorrelator 59 60;
     SetLimits theMutualInformationator 59 60;
     WriteOptions stage_preprocessingdone;
     WriteOptions (stage_precorrelation 1); CalcSimilarityPass 1 59 60;
     WriteOptions (stage_presimfuncfit 1); FitCorr 1;
     FitCorrDespeckling 1 1; FitCorrDespeckling 1 2;
     WriteOptions (stage_prerefine 1); RegressorMSE 1 zero;
     WriteOptions stage_preglm; WriteOptions stage_preglm;
     WriteOptions stage_done; Unlink ISRUNNING; Touch DONE]
  /\ exists st,
       snd (rapidtide_main Samples.options30 (Samples.steady_world_with 2 5 5)
              Samples.fresh_files) = Ok (Some st)
       /\ refinestopreason st = convergence.
Proof.
  split; [vm_compute; reflexivity|].
  eexists. split; vm_compute; reflexivity.
Qed.

(** *** A lag bound that is not a number *)

Lemma gtb_nan_l (x : float) : gtb S754_nan x = false.
Proof. unfold gtb, SFltb. destruct x; reflexivity. Qed.

(** X5: a [lagmin] that is NaN is not caught by the check of its
    magnitude, because no comparison with NaN holds; when [lagmax] passes
    its check and the preprocessing of a run that is not fake succeeds,
    the run stops at [int((-lagmin / corrtr) - 0.5)] with the
    [ValueError] of the conversion, before the lag window is set and
    before any pass. *)
Theorem nan_lagmin_stops_at_int_conversion
    (o : options) (w : world) (fs0 : files) (reg : regressor w)
    (Hnan : is_nan (lagmin o) = true)
    (Hmax : gtb (abs (lagmax o))
              (halfduration (validstart w) (validend w) (fmritr w)) = false)
    (Hfake : fakerun o = false)
    (Hpre : preprocess w = Ok reg) :
  check_lag_bounds o (validstart w) (validend w) (fmritr w) = Ok tt /\
  rapidtide_main o w fs0 =
    (startuplog,
     Raise (ValueError "cannot convert float NaN to integer"%string None)).
Proof.
  assert (Hb : check_lag_bounds o (validstart w) (validend w) (fmritr w)
               = Ok tt).
  { unfold check_lag_bounds. rewrite Hmax.
    destruct (lagmin o); try discriminate.
    cbn [abs SFabs]. rewrite gtb_nan_l. reflexivity. }
  split; [exact Hb|].
  rewrite rapidtide_main_unfold, mainbody_unfold, Hb, Hfake, Hpre.
  unfold lag_window. destruct (lagmin o); try discriminate.
  reflexivity.
Qed.

Lemma nan_lagmin_stops_at_int_conversion_witness :
  rapidtide_main Samples.options_nanlagmin (Samples.steady_world 5 5)
    Samples.fresh_files
  = (startuplog,
     Raise (ValueError "cannot convert float NaN to integer"%string None)).
Proof.
  apply (nan_lagmin_stops_at_int_conversion
           Samples.options_nanlagmin (Samples.steady_world 5 5)
           Samples.fresh_files tt);
    reflexivity.
Defined.

(** *** Why a run stopped *)

Lemma passloop_with_threshold (o : options) (w : world) (win : Z * Z)
    (thresh : float) (Hthresh : convergencethresh o = Some thresh)
    (remaining : nat) :
  forall thepass (st : loopstate w) log st',
    (1 <= remaining)%nat ->
    maxpasses o <= thepass + Z.of_nat remaining - 1 ->
    stoprefining st = false ->
    passloop o w win remaining thepass st = (log, Ok st') ->
    stoprefining st' = true /\
    (refinestopreason st' = maxpassesreached \/
     refinestopreason st' = convergence \/
     refinestopreason st' = emptymask).
Proof.
  induction remaining as [|n IH]; intros thepass st log st' Hn Hmax Hrun H;
    [lia|].
  rewrite passloop_step in H by assumption.
  rewrite onepass_unfold in H.
  assert (Hdue : refinement_due o thepass = true)
    by (unfold refinement_due; rewrite Hthresh;
        destruct (thepass <? passes o); reflexivity).
  rewrite Hdue in H.
  destruct (refinestep_cases o w thepass
              (fitpass w thepass (theregressor st)) (enterpass thepass st))
    as [E|[[e E]|[E|[m E]]]]; rewrite E in H; cbn [fst snd] in H;
    try discriminate H.
  - rewrite passloop_stopped in H by reflexivity.
    inversion H; subst. cbn. auto.
  - unfold check_convergence in H. rewrite Hthresh in H.
    cbn [enterpass refinestopreason] in H.
    destruct (maxpasses o <=? thepass) eqn:Emax.
    + cbn [fst snd] in H. rewrite passloop_stopped in H by reflexivity.
      inversion H; subst. cbn. auto.
    + destruct (ltb m thresh).
      * cbn [fst snd] in H. rewrite passloop_stopped in H by reflexivity.
        inversion H; subst. cbn. auto.
      * cbn [fst snd] in H. apply Z.leb_gt in Emax.
        match type of H with
        | (_ ++ fst ?c, snd ?c) = _ =>
            destruct c as [log2 r2] eqn:E2
        end.
        cbn [fst snd] in H. inversion H; subst.
        refine (IH (thepass + 1) _ log2 st' _ _ _ E2);
          [lia|lia|reflexivity].
Qed.

(** A run that returns the state of its loop has gone through the
    checks, the preprocessing, the loop and everything after it. *)
Lemma completed_run (o : options) (w : world) (fs0 : files)
    (log : list event) (st : loopstate w) :
  rapidtide_main o w fs0 = (log, Ok (Some st)) ->
  exists reg win log1,
    passloop o w win (Z.to_nat (numpasses o)) 1 (initialstate w reg)
      = (log1, Ok st) /\
    log = Unlink DONE :: Touch ISRUNNING
            :: (setupevents o win ++ log1
                  ++ [WriteOptions stage_preglm; WriteOptions stage_preglm;
                      WriteOptions stage_done])
            ++ [Unlink ISRUNNING; Touch DONE].
Proof.
  intros Hrun.
  rewrite rapidtide_main_unfold, mainbody_unfold in Hrun.
  destruct (check_lag_bounds o _ _ _) as [[]|e]; [|discriminate Hrun].
  destruct (fakerun o).
  { destruct (readinputs w) as [[]|e]; discriminate Hrun. }
  destruct (preprocess w) as [reg|e]; [|discriminate Hrun].
  destruct (lag_window o (corrtr o w)) as [win|e]; [|discriminate Hrun].
  destruct (passloop o w win (Z.to_nat (numpasses o)) 1 (initialstate w reg))
    as [log1 [st1|e]] eqn:El; [|discriminate Hrun].
  destruct (afterloop_cases w st1) as [E|(l' & e & E & _)];
    rewrite E in Hrun; cbn [fst snd] in Hrun; [|discriminate Hrun].
  injection Hrun as Hlog Hst. subst st1. subst log.
  exists reg, win, log1. split; [exact El|reflexivity].
Qed.

(** X6: with a convergence threshold and a range of at least one pass,
    a run that returns from the end of the function has set
    [stoprefining], and the reason it records is ["maxpassesreached"],
    ["convergence"] or ["emptymask"], never ["passesreached"]. *)
Theorem stop_reason_with_threshold
    (o : options) (w : world) (fs0 : files) (thresh : float)
    (log : list event) (st : loopstate w)
    (Hthresh : convergencethresh o = Some thresh)
    (Hrange : 1 <= numpasses o)
    (Hrun : rapidtide_main o w fs0 = (log, Ok (Some st))) :
  stoprefining st = true /\
  (refinestopreason st = maxpassesreached \/
   refinestopreason st = convergence \/
   refinestopreason st = emptymask).
Proof.
  destruct (completed_run o w fs0 log st Hrun) as (reg & win & log1 & El & _).
  eapply (passloop_with_threshold o w win thresh Hthresh
            (Z.to_nat (numpasses o)) 1 (initialstate w reg) log1 st);
    [lia| |reflexivity|exact El].
  unfold numpasses in *. rewrite Hthresh in *. lia.
Qed.

Lemma stop_reason_with_threshold_witness :
  exists st,
    snd (rapidtide_main Samples.options30 (Samples.steady_world 5 5)
           Samples.fresh_files) = Ok (Some st) /\
    stoprefining st = true /\
    (refinestopreason st = maxpassesreached \/
     refinestopreason st = convergence \/
     refinestopreason st = emptymask).
Proof.
  destruct (rapidtide_main Samples.options30 (Samples.steady_world 5 5)
              Samples.fresh_files) as [log [[st|]|e]] eqn:E;
    [|vm_compute in E; discriminate E|vm_compute in E; discriminate E].
  exists st. split; [reflexivity|].
  apply (stop_reason_with_threshold
           Samples.options30 (Samples.steady_world 5 5) Samples.fresh_files
           half log st eq_refl);
    [vm_compute; discriminate|exact E].
Defined.

Lemma passprefix_no_mse (o : options) (w : world) (win : Z * Z)
    (thepass : Z) (reg : regressor w) (P : Z -> Prop) :
  Forall (fun e => forall p m, e = RegressorMSE p m -> P p)
         (passprefix o w win thepass reg).
Proof.
  unfold passprefix.
  apply Forall_app. split;
    [destruct (check_autocorrelation o); repeat constructor; discriminate|].
  apply Forall_app. split;
    [destruct (0 <? numestreps o); repeat constructor; discriminate|].
  apply Forall_app. split; [repeat constructor; discriminate|].
  apply Forall_app. split;
    [destruct (String.eqb (similaritymetric o) "mutualinfo");
     repeat constructor; discriminate|].
  apply Forall_app. split; [repeat constructor; discriminate|].
  apply Forall_app. split; [|repeat constructor; discriminate].
  unfold despecklefits. apply Forall_forall. intros e He.
  apply in_map_iff in He. destruct He as (d & <- & _). discriminate.
Qed.

Lemma passloop_without_threshold (o : options) (w : world) (win : Z * Z)
    (Hthresh : convergencethresh o = None)
    (Hpre : globalpreselect o = false) (remaining : nat) :
  forall thepass (st : loopstate w) log st',
    (stoprefining st = false /\ refinestopreason st = passesreached
     \/ stoprefining st = true /\ refinestopreason st = emptymask) ->
    passloop o w win remaining thepass st = (log, Ok st') ->
    (stoprefining st' = false /\ refinestopreason st' = passesreached
     \/ stoprefining st' = true /\ refinestopreason st' = emptymask) /\
    Forall (fun e => forall p m, e = RegressorMSE p m -> p < passes o) log.
Proof.
  induction remaining as [|n IH]; intros thepass st log st' Hinv H.
  - inversion H; subst. split; [exact Hinv|constructor].
  - destruct (stoprefining st) eqn:Es.
    + rewrite passloop_stopped in H by assumption.
      inversion H; subst. split; [rewrite Es; exact Hinv|constructor].
    + destruct Hinv as [[_ Hr]|[Hc _]]; [|congruence].
      rewrite passloop_step in H by assumption.
      rewrite onepass_unfold in H.
      unfold refinement_due in H. rewrite Hthresh, Hpre in H.
      rewrite !orb_false_r in H.
      destruct (thepass <? passes o) eqn:Edue.
      * apply Z.ltb_lt in Edue.
        destruct (refinestep_cases o w thepass
                    (fitpass w thepass (theregressor st))
                    (enterpass thepass st))
          as [E|[[e E]|[E|[m E]]]]; rewrite E in H; cbn [fst snd] in H;
          try discriminate H.
        -- rewrite passloop_stopped in H by reflexivity.
           inversion H; subst. split; [right; split; reflexivity|].
           rewrite app_nil_r. apply Forall_app. split.
           ++ apply passprefix_no_mse.
           ++ repeat constructor; discriminate.
        -- unfold check_convergence in H. rewrite Hthresh in H.
           replace (passes o <=? thepass) with false in H
             by (symmetry; apply Z.leb_gt; exact Edue).
           cbn [fst snd enterpass refinestopreason] in H.
           match type of H with
           | (_ ++ fst ?c, snd ?c) = _ =>
               destruct c as [log2 r2] eqn:E2
           end.
           cbn [fst snd] in H. inversion H; subst.
           pose proof (fun Hinv => IH _ _ _ _ Hinv E2) as IH2.
           destruct IH2 as [Hi Hl];
             [left; split; [reflexivity|exact Hr]|].
           split; [exact Hi|].
           apply Forall_app. split; [|exact Hl].
           apply Forall_app. split; [apply passprefix_no_mse|].
           constructor; [|constructor].
           intros p m0 Hp. inversion Hp; subst. exact Edue.
      * match type of H with
        | (_ ++ fst ?c, snd ?c) = _ =>
            destruct c as [log2 r2] eqn:E2
        end.
        cbn [fst snd] in H. inversion H; subst.
        pose proof (fun Hinv => IH _ _ _ _ Hinv E2) as IH2.
        destruct IH2 as [Hi Hl];
          [left; split; [exact Es|exact Hr]|].
        split; [exact Hi|].
        apply Forall_app. split; [apply passprefix_no_mse|exact Hl].
Qed.

(** X7: without a convergence threshold and without global preselection
    the convergence metric is only ever computed in passes before the
    last one of the range, and a run that returns from the end of the
    function either has not set [stoprefining] and records
    ["passesreached"], or has set it and records ["emptymask"]. *)
Theorem stop_reason_without_threshold
    (o : options) (w : world) (fs0 : files)
    (log : list event) (st : loopstate w)
    (Hthresh : convergencethresh o = None)
    (Hpre : globalpreselect o = false)
    (Hrun : rapidtide_main o w fs0 = (log, Ok (Some st))) :
  (stoprefining st = false /\ refinestopreason st = passesreached
   \/ stoprefining st = true /\ refinestopreason st = emptymask) /\
  forall p m, In (RegressorMSE p m) log -> p < passes o.
Proof.
  destruct (completed_run o w fs0 log st Hrun)
    as (reg & win & log1 & El & ->).
  destruct (passloop_without_threshold o w win Hthresh Hpre _ 1
              (initialstate w reg) log1 st
              (or_introl (conj eq_refl eq_refl)) El) as [Hi Hl].
  split; [exact Hi|].
  assert (Hall : Forall (fun e => forall p m,
                           e = RegressorMSE p m -> p < passes o)
                   (Unlink DONE :: Touch ISRUNNING
                      :: (setupevents o win ++ log1
                            ++ [WriteOptions stage_preglm;
                                WriteOptions stage_preglm;
                                WriteOptions stage_done])
                      ++ [Unlink ISRUNNING; Touch DONE])).
  { constructor; [discriminate|]. constructor; [discriminate|].
    apply Forall_app. split; [|repeat constructor; discriminate].
    apply Forall_app. split.
    - unfold setupevents. destruct (echocancel o);
        repeat constructor; discriminate.
    - apply Forall_app. split; [exact Hl|].
      repeat constructor; discriminate. }
  intros p m Hin. rewrite Forall_forall in Hall.
  apply (Hall _ Hin p m). reflexivity.
Qed.

Lemma stop_reason_without_threshold_witness :
  exists st,
    snd (rapidtide_main Samples.options30_fixed (Samples.steady_world 5 5)
           Samples.fresh_files) = Ok (Some st) /\
    (stoprefining st = false /\ refinestopreason st = passesreached
     \/ stoprefining st = true /\ refinestopreason st = emptymask).
Proof.
  destruct (rapidtide_main Samples.options30_fixed (Samples.steady_world 5 5)
              Samples.fresh_files)
    as [log [[st|]|e]] eqn:E;
    [|vm_compute in E; discriminate E|vm_compute in E; discriminate E].
  exists st. split; [reflexivity|].
  refine (proj1 (stop_reason_without_threshold _ _ _ log st _ _ E));
    reflexivity.
Defined.

End WorkflowFacts.

(** ** Despeckling *)

Module DespeckleFacts.
Import F64 F64Facts Np NpFacts Despeckle.

Lemma set_nth_spec (v : float) :
  forall a i, (i < length a)%nat ->
    exists a', set_nth a i v = Some a' /\
      length a' = length a /\
      nth_error a' i = Some v /\
      forall j, j <> i -> nth_error a' j = nth_error a j.
Proof.
  induction a as [|x a IH]; intros i Hi; simpl in Hi; [lia|].
  destruct i as [|i]; simpl.
  - eexists. split; [reflexivity|]. split; [reflexivity|].
    split; [reflexivity|]. intros [|j] Hj; [congruence|reflexivity].
  - destruct (IH i) as (a' & E & Hl & Hn & Ho); [lia|].
    rewrite E. eexists. split; [reflexivity|].
    split; [simpl; congruence|]. split; [exact Hn|].
    intros [|j] Hj; [reflexivity|]. simpl. apply Ho. congruence.
Qed.

Lemma assign_spec :
  forall idx vals a,
    Forall (fun i => (i < length a)%nat) idx ->
    NoDup idx ->
    length idx = length vals ->
    exists out, assign a idx vals = Ok out /\
      length out = length a /\
      (forall k i v, nth_error idx k = Some i -> nth_error vals k = Some v ->
         nth_error out i = Some v) /\
      (forall j, ~ In j idx -> nth_error out j = nth_error a j).
Proof.
  induction idx as [|i idx IH]; intros [|v vals] a Hin Hnd Hlen;
    simpl in Hlen; try discriminate.
  - exists a. split; [reflexivity|]. split; [reflexivity|].
    split; [|reflexivity]. intros [|k] i v H; discriminate.
  - inversion Hin as [|? ? Hi Hin']; subst.
    inversion Hnd as [|? ? Hni Hnd']; subst.
    destruct (set_nth_spec v a i Hi) as (a' & E & Hl & Hn & Ho).
    destruct (IH vals a') as (out & Ea & Hlo & Hk & Hrest);
      [rewrite Hl; exact Hin' | exact Hnd' | congruence |].
    exists out. simpl. rewrite E.
    split; [exact Ea|]. split; [congruence|]. split.
    + intros [|k] i0 v0 H1 H2; simpl in H1, H2.
      * inversion H1; inversion H2; subst.
        rewrite (Hrest i0 Hni). exact Hn.
      * eapply Hk; eassumption.
    + intros j Hj. rewrite Hrest by (intros H; apply Hj; right; exact H).
      apply Ho. intros ->. apply Hj. left. reflexivity.
Qed.

Lemma nth_error_combine_seq {A : Type} (l : list A) :
  forall s k x, nth_error l k = Some x ->
    nth_error (combine (seq s (length l)) l) k = Some ((s + k)%nat, x).
Proof.
  induction l as [|a l IH]; intros s [|k] x H; simpl in *; try discriminate.
  - inversion H; subst. rewrite Nat.add_0_r. reflexivity.
  - rewrite (IH (S s) k x H). f_equal. f_equal. lia.
Qed.

Lemma sentinel_is_sentinel : neqb sentinel sentinel = false.
Proof. reflexivity. Qed.

Section LoopFacts.
Variable median_filter : list float -> list float.
Variable peakfit : nat -> float -> float.
Variable validvoxels : list nat.
Variable despeckle_thresh : float.

Lemma fitcorr_despeckling_spec (thelagtimes initiallags : list float) :
  length thelagtimes = length initiallags ->
  exists newlags,
    fitcorr_despeckling peakfit thelagtimes initiallags =
      Ok (Z.of_nat (count_where (fun x => neqb x sentinel) initiallags),
          newlags) /\
    length newlags = length thelagtimes /\
    forall k lag, nth_error thelagtimes k = Some lag ->
      nth_error initiallags k = Some sentinel ->
      nth_error newlags k = Some lag.
Proof.
  intros Hlen. unfold fitcorr_despeckling.
  destruct (map2_ok
              (fun (kl : nat * float) (init : float) =>
                 if neqb init sentinel then peakfit (fst kl) init
                 else snd kl)
              (combine (seq 0 (length thelagtimes)) thelagtimes)
              initiallags) as [newlags E].
  { rewrite length_combine, length_seq, Nat.min_id. exact Hlen. }
  rewrite E. simpl. exists newlags. split; [reflexivity|].
  destruct (map2_length _ _ _ _ E) as [_ Hl]. split; [congruence|].
  intros k lag Hk Hs.
  rewrite (map2_nth _ _ _ _ E k (k, lag) sentinel);
    [ rewrite sentinel_is_sentinel; reflexivity
    | apply (nth_error_combine_seq thelagtimes 0 k lag Hk)
    | exact Hs ].
Qed.

Hypothesis median_filter_length :
  forall l, length (median_filter l) = length l.
Hypothesis validvoxels_nodup : NoDup validvoxels.

(** The first half of a sub-pass: the lag map, its median filter and the
    initial lags of the valid voxels. *)
Lemma subpass_initlags (st : state) :
  length (lagtimes st) = length validvoxels ->
  Forall (fun i => (i < length (outmaparray st))%nat) validvoxels ->
  exists out full inits,
    assign (map (fun x => mul x zero) (outmaparray st))
           validvoxels (lagtimes st) = Ok out /\
    map2 (suspectlag despeckle_thresh) out (median_filter out) = Ok full /\
    take full validvoxels = Ok inits /\
    length out = length (outmaparray st) /\
    length inits = length validvoxels /\
    forall k i lag med,
      nth_error validvoxels k = Some i ->
      nth_error (lagtimes st) k = Some lag ->
      nth_error (median_filter out) i = Some med ->
      nth_error inits k = Some (suspectlag despeckle_thresh lag med).
Proof.
  intros Hlen Hvv.
  destruct (assign_spec validvoxels (lagtimes st)
              (map (fun x => mul x zero) (outmaparray st)))
    as (out & Ea & Hlo & Hk & _);
    [rewrite length_map; exact Hvv | exact validvoxels_nodup
    | congruence |].
  rewrite length_map in Hlo.
  destruct (map2_ok (suspectlag despeckle_thresh) out (median_filter out))
    as [full Ef]; [rewrite median_filter_length; reflexivity|].
  destruct (map2_length _ _ _ _ Ef) as [Hfl _].
  destruct (take_ok full validvoxels) as [inits Et];
    [rewrite Hfl, Hlo; exact Hvv|].
  exists out, full, inits.
  split; [exact Ea|]. split; [exact Ef|]. split; [exact Et|].
  split; [exact Hlo|]. split; [apply (take_length _ _ _ Et)|].
  intros k i lag med Hi Hlag Hmed.
  destruct (take_nth _ _ _ Et k i Hi) as [-> _].
  apply (map2_nth _ _ _ _ Ef); [|exact Hmed].
  eapply Hk; eassumption.
Qed.

Lemma despeckleloop_step (remaining : nat) (st : state)
    (out full inits : list float) :
  assign (map (fun x => mul x zero) (outmaparray st))
         validvoxels (lagtimes st) = Ok out ->
  map2 (suspectlag despeckle_thresh) out (median_filter out) = Ok full ->
  take full validvoxels = Ok inits ->
  despeckleloop median_filter peakfit validvoxels despeckle_thresh
    (S remaining) st =
  let num := Z.of_nat (count_where (fun x => neqb x sentinel) inits) in
  if (0 <? Z.of_nat (length inits))
     && ((num <? lastcount st) && (0 <? num)) then
    fitted <- fitcorr_despeckling peakfit (lagtimes st) inits ;;
    rest <- despeckleloop median_filter peakfit validvoxels despeckle_thresh
              remaining
              {| outmaparray := out;
                 lagtimes := snd fitted;
                 lastcount := num;
                 voxelsprocessed_fc_ds :=
                   voxelsprocessed_fc_ds st + fst fitted |} ;;
    Ok ({| lastnumdespeckled := lastcount st;
           numdespeckled := num;
           refitted := true;
           lagsbefore := lagtimes st;
           medianlags := median_filter out;
           initlags := inits;
           lagsafter := snd fitted |} :: fst rest, snd rest)
  else
    Ok ([{| lastnumdespeckled := lastcount st;
            numdespeckled := num;
            refitted := false;
            lagsbefore := lagtimes st;
            medianlags := median_filter out;
            initlags := inits;
            lagsafter := lagtimes st |}],
        {| outmaparray := out;
           lagtimes := lagtimes st;
           lastcount := lastcount st;
           voxelsprocessed_fc_ds := voxelsprocessed_fc_ds st |}).
Proof.
  intros Ea Ef Et. cbn [despeckleloop].
  rewrite Ea. cbn [bind]. rewrite Ef. cbn [bind]. rewrite Et. cbn [bind].
  reflexivity.
Qed.

Lemma refit_condition (inits : list float) (last : Z) :
  (0 <? Z.of_nat (length inits))
  && ((Z.of_nat (count_where (fun x => neqb x sentinel) inits) <? last)
      && (0 <? Z.of_nat (count_where (fun x => neqb x sentinel) inits)))
  = true
  <-> 0 < Z.of_nat (count_where (fun x => neqb x sentinel) inits) < last.
Proof.
  pose proof (count_where_le_length (fun x => neqb x sentinel) inits).
  rewrite !andb_true_iff, !Z.ltb_lt. lia.
Qed.

Lemma despeckleloop_spec (remaining : nat) :
  forall st,
    length (lagtimes st) = length validvoxels ->
    Forall (fun i => (i < length (outmaparray st))%nat) validvoxels ->
    exists trace final,
      despeckleloop median_filter peakfit validvoxels despeckle_thresh
        remaining st = Ok (trace, final) /\
      (length trace <= remaining)%nat /\
      (forall r, nth_error trace 0 = Some r ->
         lastnumdespeckled r = lastcount st /\ lagsbefore r = lagtimes st) /\
      forall j r, nth_error trace j = Some r ->
        numdespeckled r =
          Z.of_nat (count_where (fun x => neqb x sentinel) (initlags r)) /\
        (refitted r = true <->
         0 < numdespeckled r < lastnumdespeckled r) /\
        (refitted r = false -> S j = length trace) /\
        (forall r', nth_error trace (S j) = Some r' ->
           refitted r = true /\
           lastnumdespeckled r' = numdespeckled r /\
           lagsbefore r' = lagsafter r) /\
        (forall k i lag med,
           nth_error validvoxels k = Some i ->
           nth_error (lagsbefore r) k = Some lag ->
           nth_error (medianlags r) i = Some med ->
           nth_error (initlags r) k
             = Some (suspectlag despeckle_thresh lag med) /\
           (gtb (abs (sub lag med)) despeckle_thresh = false ->
            nth_error (lagsafter r) k = Some lag)).
Proof.
  induction remaining as [|n IH]; intros st Hlen Hvv.
  - exists [], st. split; [reflexivity|]. split; [apply Nat.le_refl|].
    split; [intros r H; discriminate|].
    intros [|j] r H; discriminate.
  - destruct (subpass_initlags st Hlen Hvv)
      as (out & full & inits & Ea & Ef & Et & Hlo & Hli & Hinit).
    rewrite (despeckleloop_step n st out full inits Ea Ef Et). cbv zeta.
    pose proof (refit_condition inits (lastcount st)) as Hcond.
    destruct ((0 <? Z.of_nat (length inits))
              && ((Z.of_nat (count_where (fun x => neqb x sentinel) inits)
                     <? lastcount st)
                  && (0 <? Z.of_nat
                             (count_where (fun x => neqb x sentinel) inits))))
      eqn:Ec.
    + destruct (fitcorr_despeckling_spec (lagtimes st) inits)
        as (newlags & Efc & Hnl & Hkeep); [congruence|].
      rewrite Efc. cbn [bind fst snd].
      destruct (IH {| outmaparray := out;
                      lagtimes := newlags;
                      lastcount :=
                        Z.of_nat (count_where (fun x => neqb x sentinel)
                                    inits);
                      voxelsprocessed_fc_ds :=
                        voxelsprocessed_fc_ds st
                        + Z.of_nat (count_where (fun x => neqb x sentinel)
                                      inits) |})
        as (rest & final & El & Hle & Hhead & Hall);
        [cbn; congruence | cbn; rewrite Hlo; exact Hvv |].
      rewrite El. cbn [bind fst snd].
      eexists. exists final. split; [reflexivity|].
      split; [simpl; lia|].
      split; [intros r H; inversion H; subst; split; reflexivity|].
      intros [|j] r H.
      * inversion H; subst; clear H. cbn.
        split; [reflexivity|].
        split; [split; [intros _; apply Hcond; reflexivity|reflexivity]|].
        split; [discriminate|].
        split.
        { intros r' Hr'. destruct (Hhead r' Hr') as [H1 H2].
          cbn in H1, H2. auto. }
        intros k i lag med Hi Hlag Hmed.
        pose proof (Hinit k i lag med Hi Hlag Hmed) as Hk.
        split; [exact Hk|].
        intros Hg. apply Hkeep; [exact Hlag|].
        rewrite Hk. unfold suspectlag. rewrite Hg. reflexivity.
      * destruct (Hall j r H) as (P1 & P2 & P3 & P4 & P5).
        split; [exact P1|]. split; [exact P2|].
        split; [intros Hf; simpl; f_equal; apply P3; exact Hf|].
        split; [exact P4|exact P5].
    + eexists. eexists. split; [reflexivity|].
      split; [simpl; lia|].
      split; [intros r H; inversion H; subst; split; reflexivity|].
      intros [|j] r H; [|destruct j; discriminate].
      inversion H; subst; clear H. cbn.
      split; [reflexivity|].
      split; [split; [discriminate|
                      intros Hc; apply Hcond in Hc; discriminate]|].
      split; [reflexivity|].
      split; [intros r' Hr'; discriminate|].
      intros k i lag med Hi Hlag Hmed.
      split; [apply (Hinit k i lag med Hi Hlag Hmed)|].
      intros _. exact Hlag.
Qed.

(** C3: on a lag map whose valid voxels are distinct positions of the
    map, step 2b returns after at most [despeckle_passes] sub-passes.
    The first sub-pass compares its count of suspects with 1000000, every
    later one with the count of the sub-pass before it; a sub-pass refits
    exactly when its count is positive and strictly smaller than that,
    and a sub-pass that does not refit is the last one.  The initial lag
    of a voxel is the local median when its lag is further than
    [despeckle_thresh] from that median and [-1000000.0] otherwise, the
    count is the number of initial lags that are not [-1000000.0], and a
    voxel that is not a suspect has the same lag after the sub-pass. *)
Theorem despeckling_terminates_and_spares_nonsuspects
    (despeckle_passes : Z) (outmap lags : list float)
    (Hlen : length lags = length validvoxels)
    (Hvv : Forall (fun i => (i < length outmap)%nat) validvoxels) :
  exists trace final,
    despeckle median_filter peakfit validvoxels despeckle_thresh
      despeckle_passes outmap lags = Ok (trace, final) /\
    Z.of_nat (length trace) <= Z.max 0 despeckle_passes /\
    forall j r, nth_error trace j = Some r ->
      (j = 0%nat -> lastnumdespeckled r = 1000000) /\
      numdespeckled r =
        Z.of_nat (count_where (fun x => neqb x sentinel) (initlags r)) /\
      (refitted r = true <-> 0 < numdespeckled r < lastnumdespeckled r) /\
      (refitted r = false -> S j = length trace) /\
      (forall r', nth_error trace (S j) = Some r' ->
         refitted r = true /\
         lastnumdespeckled r' = numdespeckled r /\
         lagsbefore r' = lagsafter r) /\
      (forall k i lag med,
         nth_error validvoxels k = Some i ->
         nth_error (lagsbefore r) k = Some lag ->
         nth_error (medianlags r) i = Some med ->
         nth_error (initlags r) k
           = Some (if gtb (abs (sub lag med)) despeckle_thresh
                   then med else sentinel) /\
         (gtb (abs (sub lag med)) despeckle_thresh = false ->
          nth_error (lagsafter r) k = Some lag)).
Proof.
  unfold despeckle.
  destruct (despeckleloop_spec (Z.to_nat despeckle_passes)
              {| outmaparray := outmap;
                 lagtimes := lags;
                 lastcount := 1000000;
                 voxelsprocessed_fc_ds := 0 |} Hlen Hvv)
    as (trace & final & El & Hle & Hhead & Hall).
  exists trace, final. split; [exact El|]. split; [lia|].
  intros j r Hr. destruct (Hall j r Hr) as (P1 & P2 & P3 & P4 & P5).
  split.
  { intros ->. destruct (Hhead r Hr) as [H _]. exact H. }
  split; [exact P1|]. split; [exact P2|]. split; [exact P3|].
  split; [exact P4|exact P5].
Qed.

(** X10: the number of sub-passes is bounded by the data as well as by
    [despeckle_passes]: step 2b never runs more sub-passes than one more
    than the number of suspects its first sub-pass counted, because
    every refit needs a count that is positive and strictly smaller
    than the one before. *)
Theorem despeckle_subpasses_bounded_by_suspects
    (despeckle_passes : Z) (outmap lags : list float)
    (trace : list subpass) (final : state) (first : subpass)
    (Hlen : length lags = length validvoxels)
    (Hvv : Forall (fun i => (i < length outmap)%nat) validvoxels)
    (Hrun : despeckle median_filter peakfit validvoxels despeckle_thresh
              despeckle_passes outmap lags = Ok (trace, final))
    (Hfirst : nth_error trace 0 = Some first) :
  0 <= numdespeckled first /\
  Z.of_nat (length trace) <= numdespeckled first + 1.
Proof.
  unfold despeckle in Hrun.
  destruct (despeckleloop_spec (Z.to_nat despeckle_passes)
              {| outmaparray := outmap;
                 lagtimes := lags;
                 lastcount := 1000000;
                 voxelsprocessed_fc_ds := 0 |} Hlen Hvv)
    as (trace' & final' & El & _ & _ & Hall).
  rewrite El in Hrun. inversion Hrun; subst trace' final'. clear Hrun El.
  assert (Hnonneg : 0 <= numdespeckled first).
  { destruct (Hall 0%nat first Hfirst) as (P1 & _). rewrite P1. lia. }
  split; [exact Hnonneg|].
  assert (Hdec : forall j r, nth_error trace j = Some r ->
            refitted r = true ->
            numdespeckled r + Z.of_nat j <= numdespeckled first).
  { induction j as [|j IHj]; intros r Hr Href.
    - rewrite Hfirst in Hr. inversion Hr; subst. lia.
    - destruct (nth_error trace j) as [rp|] eqn:Ep.
      + destruct (Hall j rp Ep) as (_ & _ & _ & P4 & _).
        destruct (P4 r Hr) as (Hrp & Hlast & _).
        destruct (Hall (S j) r Hr) as (_ & P2 & _).
        apply P2 in Href. specialize (IHj rp eq_refl Hrp). lia.
      + apply nth_error_None in Ep.
        assert (S j < length trace)%nat
          by (apply nth_error_Some; congruence).
        lia. }
  destruct (length trace) as [|[|m]] eqn:Em; try lia.
  destruct (nth_error trace m) as [rp|] eqn:Ep;
    [|apply nth_error_None in Ep; lia].
  destruct (nth_error trace (S m)) as [rl|] eqn:Elast;
    [|apply nth_error_None in Elast; lia].
  destruct (Hall m rp Ep) as (_ & P2 & _ & P4 & _).
  destruct (P4 rl Elast) as (Hrp & _ & _).
  pose proof (Hdec m rp Ep Hrp) as Hd.
  apply P2 in Hrp. lia.
Qed.

End LoopFacts.

Example despeckle_single_outlier :
  option_map (fun r => (map refitted (fst r), lagtimes (snd r)))
    (match despeckle Samples.zero_median_filter (fun _ seed => seed)
             [0%nat; 2%nat] one 3 [zero; zero; zero] [of_Z 5; half] with
     | Ok r => Some r
     | Raise _ => None
     end)
  = Some ([true; false], [zero; half]).
Proof. vm_compute. reflexivity. Qed.

Lemma despeckling_terminates_and_spares_nonsuspects_witness :
  exists trace final,
    despeckle Samples.zero_median_filter (fun _ seed => seed)
      [0%nat; 2%nat] one 3 [zero; zero; zero] [of_Z 5; half]
      = Ok (trace, final) /\
    Z.of_nat (length trace) <= Z.max 0 3.
Proof.
  assert (Hmf : forall l,
            length (Samples.zero_median_filter l) = length l)
    by (intros l; apply length_map).
  assert (Hnd : NoDup [0%nat; 2%nat]).
  { constructor; [simpl; intros [H|[]]; discriminate H|].
    constructor; [simpl; intros []|constructor]. }
  assert (Hvv : Forall (fun i => (i < length [zero; zero; zero])%nat)
                       [0%nat; 2%nat])
    by (repeat constructor).
  destruct (despeckling_terminates_and_spares_nonsuspects
              Samples.zero_median_filter (fun _ seed => seed)
              [0%nat; 2%nat] one Hmf Hnd
              3 [zero; zero; zero] [of_Z 5; half] eq_refl Hvv)
    as (trace & final & H1 & H2 & _).
  exists trace, final. split; assumption.
Defined.

Lemma despeckle_subpasses_bounded_by_suspects_witness :
  exists trace final first,
    despeckle Samples.zero_median_filter (fun _ seed => seed)
      [0%nat; 2%nat] one 3 [zero; zero; zero] [of_Z 5; half]
      = Ok (trace, final) /\
    nth_error trace 0 = Some first /\
    numdespeckled first = 1 /\
    Z.of_nat (length trace) <= numdespeckled first + 1.
Proof.
  assert (Hmf : forall l,
            length (Samples.zero_median_filter l) = length l)
    by (intros l; apply length_map).
  assert (Hnd : NoDup [0%nat; 2%nat]).
  { constructor; [simpl; intros [H|[]]; discriminate H|].
    constructor; [simpl; intros []|constructor]. }
  assert (Hvv : Forall (fun i => (i < length [zero; zero; zero])%nat)
                       [0%nat; 2%nat])
    by (repeat constructor).
  destruct (despeckle Samples.zero_median_filter (fun _ seed => seed)
              [0%nat; 2%nat] one 3 [zero; zero; zero] [of_Z 5; half])
    as [[trace final]|e] eqn:E; [|vm_compute in E; discriminate E].
  destruct trace as [|first rest]; [vm_compute in E; discriminate E|].
  exists (first :: rest), final, first.
  split; [reflexivity|]. split; [reflexivity|].
  split; [vm_compute in E; inversion E; reflexivity|].
  apply (despeckle_subpasses_bounded_by_suspects
           Samples.zero_median_filter (fun _ seed => seed)
           [0%nat; 2%nat] one Hmf Hnd
           3 [zero; zero; zero] [of_Z 5; half]
           (first :: rest) final first eq_refl Hvv E eq_refl).
Defined.

End DespeckleFacts.

(** ** Masks of the refinement step *)

Module MasksFacts.
Import F64 Masks.

(** Whenever the offset mask comes out empty and the warning is logged,
    the mask that is used afterwards is [fitmask], which by then is the
    very array that was emptied. *)
Lemma offset_fallback_is_empty (h : store) (fitmask : ref)
    (inc exc : option (list float)) (h' : store) (m : ref)
    (warnings : list string) :
  offsetmask_step h fitmask inc exc = Ok (h', m, warnings) ->
  warnings <> [] ->
  m = fitmask /\ getmasksize (load h' m) = 0.
Proof.
  unfold offsetmask_step, np_uint16. intros H Hw.
  destruct (match inc with
            | Some i => zero_where_in h fitmask (map (fun x => eqb x zero) i)
            | None => Ok h
            end) as [h1|e]; simpl in H; [|discriminate].
  destruct (match exc with
            | Some x => zero_where_in h1 fitmask (map (fun x => neqb x zero) x)
            | None => Ok h1
            end) as [h2|e]; simpl in H; [|discriminate].
  destruct (getmasksize (load h2 fitmask) =? 0) eqn:E;
    inversion H; subst; [|congruence].
  split; [reflexivity|]. apply Z.eqb_eq. exact E.
Qed.

(** C7 on the code: with a fit mask of two fitted voxels and an offset
    include mask that selects neither, the warning is logged but the mask
    handed to the offset histogram is empty, and so is [fitmask] itself
    from then on: no lag is selected, where the unrestricted fit mask
    would select both.  In the same way, when both voxels were
    despeckled the despeckle exclusion is dropped but [fitmask] has been
    emptied through [overallmask]. *)
Theorem mask_fallback_leaves_fitmask_empty :
  offsetmask_step [[1; 1]] 0%nat (Some [zero; zero]) None
    = Ok ([[0; 0]], 0%nat, [offset_msg]) /\
  select_positive [one; two] (load [[0; 0]] 0%nat) = [] /\
  select_positive [one; two] [1; 1] = [one; two] /\
  refineexcludemask_step [[1; 1]] 0%nat false 3 None None [half; half]
    = Ok ([[0; 0]], None, [despeckled_msg]).
Proof. repeat split. Qed.

Example offsetmask_without_fallback :
  offsetmask_step [[1; 1]] 0%nat (Some [zero; one]) None
    = Ok ([[0; 1]], 0%nat, []).
Proof. reflexivity. Qed.

(** *** Restricting a mask in place *)

Lemma load_save_same (a : list Z) :
  forall (h : store) (r : ref), (r < length h)%nat ->
    load (save h r a) r = a.
Proof.
  unfold load. induction h as [|x h IH]; intros r Hr; simpl in Hr; [lia|].
  destruct r as [|r]; simpl; [reflexivity|]. apply IH. lia.
Qed.

Lemma save_out (a : list Z) :
  forall (h : store) (r : ref), (length h <= r)%nat -> save h r a = h.
Proof.
  induction h as [|x h IH]; intros r Hr; simpl in *; [reflexivity|].
  destruct r as [|r]; [lia|]. f_equal. apply IH. lia.
Qed.

Lemma load_out (h : store) (r : ref) :
  (length h <= r)%nat -> load h r = [].
Proof. intros H. unfold load. apply nth_overflow. exact H. Qed.

Lemma zero_where_restricts :
  forall cond a a', zero_where a cond = Ok a' ->
    Forall2 (fun x' x => x' = 0 \/ x' = x) a' a.
Proof.
  induction cond as [|c cond IH]; intros a a' H.
  - destruct a; inversion H; subst.
    + constructor.
    + clear H. induction (z :: a); constructor; auto.
  - destruct a as [|x a].
    + cbn [zero_where] in H.
      destruct (existsb (fun b => b) (c :: cond)); inversion H.
      constructor.
    + cbn [zero_where] in H.
      destruct (zero_where a cond) as [rest|e] eqn:E; simpl in H;
        [|discriminate].
      inversion H; subst. constructor; [|apply IH; exact E].
      destruct c; auto.
Qed.

Lemma restricted_trans (a'' a' a : list Z) :
  Forall2 (fun x' x => x' = 0 \/ x' = x) a'' a' ->
  Forall2 (fun x' x => x' = 0 \/ x' = x) a' a ->
  Forall2 (fun x' x => x' = 0 \/ x' = x) a'' a.
Proof.
  intros H. revert a. induction H as [|x'' x' l'' l' Hx _ IH]; intros a H2;
    inversion H2; subst; constructor; [|apply IH; assumption].
  destruct Hx as [-> | ->]; auto.
Qed.

Lemma restricted_masksize (a' a : list Z) :
  Forall2 (fun x' x => x' = 0 \/ x' = x) a' a ->
  getmasksize a' <= getmasksize a.
Proof.
  unfold getmasksize, Np.count_where.
  induction 1 as [|x' x l' l Hx _ IH]; simpl; [lia|].
  destruct Hx as [-> | ->].
  - simpl. destruct (0 <? x); simpl length; lia.
  - destruct (0 <? x); simpl length; lia.
Qed.

Lemma zero_where_in_restricts (h h' : store) (r : ref) (cond : list bool) :
  zero_where_in h r cond = Ok h' ->
  Forall2 (fun x' x => x' = 0 \/ x' = x) (load h' r) (load h r).
Proof.
  unfold zero_where_in. intros H.
  destruct (zero_where (load h r) cond) as [a'|e] eqn:E; simpl in H;
    [|discriminate].
  inversion H; subst h'. clear H.
  pose proof (zero_where_restricts _ _ _ E) as Hr.
  destruct (Nat.lt_ge_cases r (length h)) as [Hin|Hout].
  - rewrite load_save_same by exact Hin. exact Hr.
  - rewrite save_out by exact Hout. rewrite load_out in * by exact Hout.
    inversion Hr; subst. constructor.
Qed.

Lemma restricted_refl (a : list Z) :
  Forall2 (fun x' x => x' = 0 \/ x' = x) a a.
Proof. induction a; constructor; auto. Qed.

(** X11: in the offset calculation the array [offsetmask] names is
    always [fitmask] itself, restricted in place: after the step it has
    the length it had, every entry is either unchanged or zero, and it
    selects no more voxels than the fit mask did before. *)
Theorem offsetmask_restricts_fitmask_in_place
    (h h' : store) (fitmask m : ref) (inc exc : option (list float))
    (warnings : list string)
    (Hstep : offsetmask_step h fitmask inc exc = Ok (h', m, warnings)) :
  m = fitmask /\
  length (load h' fitmask) = length (load h fitmask) /\
  getmasksize (load h' fitmask) <= getmasksize (load h fitmask) /\
  forall k x', nth_error (load h' fitmask) k = Some x' ->
    x' = 0 \/ nth_error (load h fitmask) k = Some x'.
Proof.
  unfold offsetmask_step, np_uint16 in Hstep.
  assert (H1 : forall h1,
            match inc with
            | Some i =>
                zero_where_in h fitmask (map (fun x => eqb x zero) i)
            | None => Ok h
            end = Ok h1 ->
            Forall2 (fun x' x => x' = 0 \/ x' = x)
                    (load h1 fitmask) (load h fitmask)).
  { intros h1 E. destruct inc as [i|].
    - apply (zero_where_in_restricts _ _ _ _ E).
    - inversion E; subst. apply restricted_refl. }
  destruct (match inc with
            | Some i => zero_where_in h fitmask (map (fun x => eqb x zero) i)
            | None => Ok h
            end) as [h1|e]; simpl in Hstep; [|discriminate].
  specialize (H1 h1 eq_refl).
  assert (H2 : forall h2,
            match exc with
            | Some x =>
                zero_where_in h1 fitmask (map (fun x => neqb x zero) x)
            | None => Ok h1
            end = Ok h2 ->
            Forall2 (fun x' x => x' = 0 \/ x' = x)
                    (load h2 fitmask) (load h1 fitmask)).
  { intros h2 E. destruct exc as [x|].
    - apply (zero_where_in_restricts _ _ _ _ E).
    - inversion E; subst. apply restricted_refl. }
  destruct (match exc with
            | Some x => zero_where_in h1 fitmask (map (fun x => neqb x zero) x)
            | None => Ok h1
            end) as [h2|e]; simpl in Hstep; [|discriminate].
  specialize (H2 h2 eq_refl).
  pose proof (restricted_trans _ _ _ H2 H1) as Hr.
  assert (Hh : h' = h2 /\ m = fitmask)
    by (destruct (getmasksize (load h2 fitmask) =? 0);
        inversion Hstep; auto).
  destruct Hh as [-> ->].
  split; [reflexivity|].
  split; [apply (Forall2_length Hr)|].
  split; [apply restricted_masksize; exact Hr|].
  intros k x' Hk.
  clear - Hr Hk. revert k Hk.
  induction Hr as [|y' y l' l Hy _ IH]; intros [|k] Hk; simpl in *;
    try discriminate.
  - inversion Hk; subst. destruct Hy as [->| ->]; auto.
  - apply IH. exact Hk.
Qed.

Lemma offsetmask_restricts_fitmask_in_place_witness :
  0%nat = 0%nat /\
  length (load [[0; 1; 1]] 0%nat) = length (load [[1; 1; 1]] 0%nat) /\
  getmasksize (load [[0; 1; 1]] 0%nat)
    <= getmasksize (load [[1; 1; 1]] 0%nat).
Proof.
  destruct (offsetmask_restricts_fitmask_in_place
              [[1; 1; 1]] [[0; 1; 1]] 0%nat 0%nat
              (Some [zero; one; one]) None [] eq_refl)
    as (H1 & H2 & H3 & _).
  repeat split; assumption.
Defined.

Lemma select_positive_empty_mask :
  forall (mask : list Z) (lagtimes : list float),
    getmasksize mask = 0 -> select_positive lagtimes mask = [].
Proof.
  unfold getmasksize, Np.count_where.
  induction mask as [|x mask IH]; intros [|l lagtimes] H; simpl in *;
    try reflexivity.
  destruct (0 <? x); simpl in H; [lia|]. apply IH. exact H.
Qed.

(** X12: whenever the offset calculation logs that it cannot exclude
    voxels and falls back, the mask it goes on with is [fitmask] as it
    is by then: it selects no voxel, and the offset histogram is handed
    an empty set of lags, whatever the lag map holds. *)
Theorem offset_fallback_selects_no_lag
    (h h' : store) (fitmask m : ref) (inc exc : option (list float))
    (warnings : list string) (lagtimes : list float)
    (Hstep : offsetmask_step h fitmask inc exc = Ok (h', m, warnings))
    (Hwarn : warnings <> []) :
  warnings = [offset_msg] /\
  m = fitmask /\
  getmasksize (load h' m) = 0 /\
  select_positive lagtimes (load h' m) = [].
Proof.
  destruct (offset_fallback_is_empty h fitmask inc exc h' m warnings
              Hstep Hwarn) as [Hm Hsize].
  split.
  - unfold offsetmask_step, np_uint16 in Hstep.
    destruct (match inc with
              | Some i =>
                  zero_where_in h fitmask (map (fun x => eqb x zero) i)
              | None => Ok h
              end) as [h1|e]; simpl in Hstep; [|discriminate].
    destruct (match exc with
              | Some x =>
                  zero_where_in h1 fitmask (map (fun x => neqb x zero) x)
              | None => Ok h1
              end) as [h2|e]; simpl in Hstep; [|discriminate].
    destruct (getmasksize (load h2 fitmask) =? 0);
      inversion Hstep; subst; [reflexivity|congruence].
  - split; [exact Hm|]. split; [exact Hsize|].
    apply select_positive_empty_mask. exact Hsize.
Qed.

Lemma offset_fallback_selects_no_lag_witness :
  [offset_msg] = [offset_msg] /\
  0%nat = 0%nat /\
  getmasksize (load [[0; 0]] 0%nat) = 0 /\
  select_positive [one; two] (load [[0; 0]] 0%nat) = [].
Proof.
  apply (offset_fallback_selects_no_lag
           [[1; 1]] [[0; 0]] 0%nat 0%nat (Some [zero; zero]) None
           [offset_msg] [one; two] eq_refl).
  discriminate.
Defined.

(** X13: the exclude mask with the despeckled voxels added holds only
    zeros and ones, has a one at every despeckled voxel, and keeps
    every voxel excluded that the given exclude mask marks with a
    positive value. *)
Theorem withdespeckled_excludes_despeckled
    (excludemask : option (list float)) (despeckled this : list float)
    (Hthis : withdespeckled excludemask despeckled = Ok this) :
  length this = length despeckled /\
  forall k d t,
    nth_error despeckled k = Some d ->
    nth_error this k = Some t ->
    (t = zero \/ t = one) /\
    (neqb d zero = true -> t = one) /\
    (forall exc e, excludemask = Some exc -> nth_error exc k = Some e ->
       gtb e zero = true -> t = one).
Proof.
  unfold withdespeckled in Hthis. destruct excludemask as [exc|].
  - destruct (NpFacts.map2_length _ _ _ _ Hthis) as [_ Hl].
    split; [exact Hl|].
    intros k d t Hd Ht.
    assert (Hk : (k < length exc)%nat).
    { destruct (NpFacts.map2_length _ _ _ _ Hthis) as [Hle _].
      rewrite <- Hle. apply nth_error_Some. congruence. }
    destruct (nth_error exc k) as [e|] eqn:Ee;
      [|apply nth_error_None in Ee; lia].
    pose proof (NpFacts.map2_nth _ _ _ _ Hthis k e d Ee Hd) as Hv.
    rewrite Ht in Hv. inversion Hv; subst t. clear Hv.
    split; [|split].
    + destruct (neqb d zero); [auto|]. destruct (gtb e zero); auto.
    + intros ->. reflexivity.
    + intros exc0 e0 Hexc He0 Hg. inversion Hexc; subst exc0.
      rewrite Ee in He0. inversion He0; subst e0.
      rewrite Hg. destruct (neqb d zero); reflexivity.
  - inversion Hthis; subst this. split; [apply length_map|].
    intros k d t Hd Ht. rewrite nth_error_map, Hd in Ht.
    inversion Ht; subst t. clear Ht. unfold neqb, eqb.
    split; [|split].
    + destruct (SFeqb d zero); auto.
    + destruct (SFeqb d zero); [discriminate|reflexivity].
    + intros exc e H. discriminate.
Qed.

Lemma withdespeckled_excludes_despeckled_witness :
  length [one; one; zero] = length [half; zero; zero] /\
  withdespeckled (Some [zero; one; zero]) [half; zero; zero]
    = Ok [one; one; zero].
Proof.
  split; [|reflexivity].
  apply (withdespeckled_excludes_despeckled
           (Some [zero; one; zero]) [half; zero; zero] [one; one; zero]
           eq_refl).
Defined.

End MasksFacts.
